(** * Bounded concurrent embedding client

    A model of the coroutines [request] and [main] of the notebook
    [automatic_embedding_tei_inference_endpoints.ipynb], run by a
    single-threaded cooperative event loop.

    - A record (a Python [dict]) is a finite map from field names to values;
      records live in a store indexed by object identity, so that the same
      object may occur at several positions of [documents].
    - A coroutine runs without interruption between two suspension points.
      [request] suspends when it waits for a slot of the semaphore and when
      it waits for the reply to its [post]; [main] suspends at [await f].
    - The event loop and the network are the environment: a schedule is a
      list of labels saying which task runs next, which reply arrives next,
      and when [main] is resumed. Any task that waits for the semaphore may
      take a free slot, so that every order in which the loop can wake the
      waiters is a schedule.
    - Each task sends at most one request, so an endpoint is a function from
      the position of the task and the payload to the reply.
    - Nothing cancels the tasks when [main] ends with an exception: they
      stay scheduled on the loop, and the schedule may go on running them.
    - The reply is the decoded JSON value; [np.array] is the one of NumPy
      1.24 and later, which refuses a list whose items differ in shape. *)

From stdpp Require Import base numbers list strings gmap functions.

(** The configuration cell of the notebook. *)
Definition MAX_WORKERS : nat := 5.

Section Model.

(** The numbers of a vector are passed through and never inspected. *)
Context {scalar : Type}.

(** ** Data *)

(** A decoded JSON value, as NumPy sees it: a number, a list, or something
    else that is not a sequence for NumPy (null, true or false, a string, or
    an object, of which only the number of keys is kept). *)
Inductive atom : Type :=
  | ANull
  | ABool (b : bool)
  | AStr (s : string)
  | AObject (keys : nat).

#[warnings="-register-all"]
Inductive json : Type :=
  | JNum (x : scalar)
  | JAtom (a : atom)
  | JList (items : list json).

(** A field of a record. [VNumpy a] is what indexing a NumPy array gives:
    an array with the entries [a] when [a] is a list, a scalar otherwise.
    The entries are kept as they are in the reply; the conversion of the
    entries to the common type of the array is not modelled. *)
Inductive value : Type :=
  | VNone
  | VBool (b : bool)
  | VInt (n : Z)
  | VStr (s : string)
  | VArray (xs : list scalar)
  | VNumpy (a : json).

(** Object identity of a [dict]. *)
Definition loc : Type := nat.

(** The body of the request: [{"inputs": ..., "truncate": ...}]. *)
Record payload : Type := Payload { inputs : value; truncate : bool }.

(** What [endpoint.async_client.post] does: it raises, or it returns bytes.
    Bytes that [result.decode()] or [json.loads] rejects are [Returns None];
    bytes that decode are the JSON value they hold. *)
Inductive post_error : Type :=
  | Timeout
  | ConnectionReset
  | BadStatus (code : nat).

Inductive response : Type :=
  | Raises (e : post_error)
  | Returns (body : option json).

(** The two places a [ValueError] can come from. *)
Inductive value_error : Type :=
  | ReleasedTooManyTimes
  | InhomogeneousShape.

Inductive exn : Type :=
  | KeyError (k : string)
  | ClientError (e : post_error)
  | JSONDecodeError
  | IndexError
  | ValueError (why : value_error).

(** Outcome of a finished task: the returned document, or the exception. *)
Inductive result : Type :=
  | Ok (document : loc)
  | Err (e : exn).

(** ** [np.array] and indexing

    [np.array] (NumPy 1.24 and later, which has at most 32 dimensions)
    builds an array over the whole decoded value: the items of a list must
    all have one shape, and a ragged or too deeply nested value raises
    [ValueError]. A value that is not a list gives an array of no
    dimension. *)

Definition NPY_MAXDIMS : nat := 32.

(** The one shape of the items of a list, if they have one. *)
Definition same_shape (shapes : list (option (list nat))) : option (list nat) :=
  match shapes with
  | [] => Some []
  | first :: rest => if decide (Forall (λ o, o = first) rest) then first else None
  end.

Fixpoint shape (j : json) : option (list nat) :=
  match j with
  | JNum _ | JAtom _ => Some []
  | JList items =>
      match items with
      | [] => Some [0]
      | _ => (λ sh, length items :: sh) <$> same_shape (shape <$> items)
      end
  end.

Definition np_array (j : json) : exn + json :=
  match shape j with
  | Some sh =>
      if decide (length sh ≤ NPY_MAXDIMS) then inr j
      else inl (ValueError InhomogeneousShape)
  | None => inl (ValueError InhomogeneousShape)
  end.

(** [result[0]]: the first item along the first axis; an array of no
    dimension, or of no item, raises [IndexError]. *)
Definition getitem0 (result : json) : option json :=
  match result with
  | JList (first :: _) => Some first
  | JList [] | JNum _ | JAtom _ => None
  end.

(** A vector, and a list of vectors, as JSON. *)
Definition vector (xs : list scalar) : json := JList (JNum <$> xs).

Definition vectors (vs : list (list scalar)) : json := JList (vector <$> vs).

(** ** The coroutine [request]

    [request] runs up to its [await] of the post, where it hands the
    payload to the network and keeps the rest of its body as a
    continuation over the reply and the store. *)

Inductive coroutine : Type :=
  | Raise (e : exn)
  | AwaitPost (p : payload)
      (k : response → (loc → gmap string value) → (loc → gmap string value) * result).

(** What the lines [result = await ...post(...)],
    [result = np.array(json.loads(result.decode()))] and [result[0]] give
    on a reply: the exception raised, or the item obtained. *)
Definition first_item (r : response) : exn + json :=
  match r with
  | Raises e => inl (ClientError e)
  | Returns None => inl JSONDecodeError
  | Returns (Some j) =>
      match np_array j with
      | inl e => inl e
      | inr result =>
          match getitem0 result with
          | None => inl IndexError
          | Some first => inr first
          end
      end
  end.

(** The lines after the post is sent: the item is obtained, assigned to
    [document['embedding']], and the document is returned. *)
Definition request_resume (document : loc) (r : response)
    (h : loc → gmap string value) : (loc → gmap string value) * result :=
  match first_item r with
  | inl e => (h, Err e)
  | inr first =>
      (<[document := <["embedding" := VNumpy first]> (h document)]> h, Ok document)
  end.

(** The body of [async with semaphore:] up to the suspension. *)
Definition request (document : loc) (h : loc → gmap string value) : coroutine :=
  match h document !! "content" with
  | None => Raise (KeyError "content")
  | Some c =>
      AwaitPost {| inputs := c; truncate := true |} (request_resume document)
  end.

(** ** Tasks and the scheduler state

    A task is the coroutine [request(document, semaphore)] wrapped by
    [as_completed]: not yet run ([Pending]), suspended in
    [semaphore.acquire] ([Waiting]), suspended at the [await] of its post
    while it holds a slot ([InFlight], with the payload sent and the rest of
    its body), or done ([Finished]). *)

Inductive task : Type :=
  | Pending (document : loc)
  | Waiting (document : loc)
  | InFlight (document : loc) (p : payload)
      (k : response → (loc → gmap string value) → (loc → gmap string value) * result)
  | Finished (r : result).

Inductive main_status : Type :=
  | Running (remaining : nat)
  | Returned
  | Raised (e : exn).

(** [heap] holds the records; [sem_value] and [sem_bound] are the counter
    and the bound of the [BoundedSemaphore]; [tasks] has one task for each
    position of [documents]; [done] is the queue of [as_completed], the
    positions of the finished tasks in the order they finished, not yet
    awaited by [main]; [sent] records every call of the post, as an
    instrumented endpoint would. *)
Record state : Type := State {
    heap : loc → gmap string value;
    sem_value : nat;
    sem_bound : nat;
    tasks : list task;
    done : list nat;
    main_st : main_status;
    sent : list (nat * payload)
  }.

Definition set_heap (h : loc → gmap string value) (s : state) : state :=
  {| heap := h; sem_value := sem_value s; sem_bound := sem_bound s;
     tasks := tasks s; done := done s; main_st := main_st s; sent := sent s |}.

Definition set_sem (v : nat) (s : state) : state :=
  {| heap := heap s; sem_value := v; sem_bound := sem_bound s;
     tasks := tasks s; done := done s; main_st := main_st s; sent := sent s |}.

Definition set_task (i : nat) (t : task) (s : state) : state :=
  {| heap := heap s; sem_value := sem_value s; sem_bound := sem_bound s;
     tasks := <[i := t]> (tasks s); done := done s; main_st := main_st s;
     sent := sent s |}.

Definition push_done (i : nat) (s : state) : state :=
  {| heap := heap s; sem_value := sem_value s; sem_bound := sem_bound s;
     tasks := tasks s; done := done s ++ [i]; main_st := main_st s;
     sent := sent s |}.

Definition set_main (q : list nat) (m : main_status) (s : state) : state :=
  {| heap := heap s; sem_value := sem_value s; sem_bound := sem_bound s;
     tasks := tasks s; done := q; main_st := m; sent := sent s |}.

Definition log_post (i : nat) (p : payload) (s : state) : state :=
  {| heap := heap s; sem_value := sem_value s; sem_bound := sem_bound s;
     tasks := tasks s; done := done s; main_st := main_st s;
     sent := sent s ++ [(i, p)] |}.

(** [BoundedSemaphore.release]: raises [ValueError] at the bound.
    [sem_value] counts the free slots. *)
Definition release (s : state) : option state :=
  if decide (sem_bound s ≤ sem_value s) then None
  else Some (set_sem (S (sem_value s)) s).

(** Leaving the [async with] block with outcome [r]: the slot is released,
    the task is done and its future is queued for [as_completed]. *)
Definition finish (i : nat) (r : result) (s : state) : state :=
  match release s with
  | Some s' => push_done i (set_task i (Finished r) s')
  | None =>
      push_done i (set_task i (Finished (Err (ValueError ReleasedTooManyTimes))) s)
  end.

(** Entering the [async with] block: a slot is taken and the body runs up
    to its suspension. *)
Definition enter (i : nat) (document : loc) (s : state) : state :=
  let s1 := set_sem (pred (sem_value s)) s in
  match request document (heap s1) with
  | Raise e => finish i (Err e) s1
  | AwaitPost p k => log_post i p (set_task i (InFlight document p k) s1)
  end.

(** The loop of [main] after [remaining] more futures are to be awaited. *)
Definition loop (remaining : nat) : main_status :=
  match remaining with
  | 0 => Returned
  | S _ => Running remaining
  end.

(** [main]: the semaphore, one task per document, and the loop. *)
Definition main (documents : list loc) (max_workers : nat)
    (h : loc → gmap string value) : state :=
  {| heap := h;
     sem_value := max_workers;
     sem_bound := max_workers;
     tasks := Pending <$> documents;
     done := [];
     main_st := loop (length documents);
     sent := [] |}.

(** ** Steps

    [Sched i]: the loop runs task [i], which takes a slot and sends its
    request, or finds no slot free and waits. [Reply i]: the reply to the
    request of task [i] arrives and the task runs to its end. [Await]: the
    loop resumes [main] with the next finished future. *)

Inductive label : Type :=
  | Sched (i : nat)
  | Reply (i : nat)
  | Await.

Section Steps.

(** The reply the endpoint gives to the request of task [i]. *)
Variable endpoint : nat → payload → response.

Definition step (a : label) (s : state) : option state :=
  match a with
  | Sched i =>
      match tasks s !! i with
      | Some (Pending d) =>
          if decide (0 < sem_value s) then Some (enter i d s)
          else Some (set_task i (Waiting d) s)
      | Some (Waiting d) =>
          if decide (0 < sem_value s) then Some (enter i d s) else None
      | _ => None
      end
  | Reply i =>
      match tasks s !! i with
      | Some (InFlight d p k) =>
          let hr := k (endpoint i p) (heap s) in
          Some (finish i hr.2 (set_heap hr.1 s))
      | _ => None
      end
  | Await =>
      match main_st s, done s with
      | Running (S n), i :: q =>
          match tasks s !! i with
          | Some (Finished (Ok _)) => Some (set_main q (loop n) s)
          | Some (Finished (Err e)) => Some (set_main q (Raised e) s)
          | _ => None
          end
      | _, _ => None
      end
  end.

Fixpoint exec (ls : list label) (s : state) : option state :=
  match ls with
  | [] => Some s
  | a :: ls' =>
      match step a s with
      | Some s' => exec ls' s'
      | None => None
      end
  end.

End Steps.

(** ** Observations *)

Definition is_in_flight (t : task) : bool :=
  match t with InFlight _ _ _ => true | _ => false end.

Definition is_finished (t : task) : bool :=
  match t with Finished _ => true | _ => false end.

(** Requests sent and not yet answered. *)
Definition outstanding (s : state) : nat :=
  length (filter (λ t, is_in_flight t = true) (tasks s)).

Definition unfinished (s : state) : nat :=
  length (filter (λ t, is_finished t = false) (tasks s)).

(** Requests sent for task [i] so far. *)
Definition attempts (i : nat) (s : state) : nat :=
  length (filter (λ ip, ip.1 = i) (sent s)).

End Model.


(** * Invariants of a run *)

Definition weight {A : Type} (P : A → Prop) `{!∀ x, Decision (P x)} (x : A) : nat :=
  if decide (P x) then 1 else 0.

Section Invariants.

Context {scalar : Type}.
Variable documents : list loc.
Variable max_workers : nat.
Variable h0 : loc → gmap string (@value scalar).
Variable endpoint : nat → @payload scalar → @response scalar.

(** The exception the rest of [request] raises on a reply, if any. *)
Definition failure_of (r : @response scalar) : option exn :=
  match first_item r with
  | inl e => Some e
  | inr _ => None
  end.

(** The payload [request] builds for the record at [d]. *)
Definition payload_of (d : loc) (p : @payload scalar) : Prop :=
  ∃ c, h0 d !! "content" = Some c ∧ p = {| inputs := c; truncate := true |}.

(** What the state of task [i] says about its document and its requests. *)
Definition task_ok (s : @state scalar) (i : nat) (t : @task scalar) : Prop :=
  match t with
  | Pending d | Waiting d => documents !! i = Some d ∧ attempts i s = 0
  | InFlight d p k =>
      documents !! i = Some d ∧ payload_of d p ∧ k = request_resume d ∧
      attempts i s = 1
  | Finished (Ok d) =>
      documents !! i = Some d ∧ attempts i s = 1 ∧
      ∃ p, payload_of d p ∧ failure_of (endpoint i p) = None
  | Finished (Err (KeyError k)) =>
      k = "content" ∧ attempts i s = 0 ∧
      ∃ d, documents !! i = Some d ∧ h0 d !! "content" = None
  | Finished (Err (ValueError ReleasedTooManyTimes)) => False
  | Finished (Err e) =>
      attempts i s = 1 ∧
      ∃ d p, documents !! i = Some d ∧ payload_of d p ∧
             failure_of (endpoint i p) = Some e
  end.

(** A record is as it was submitted, or it carries the first item of the
    reply to a request made for it. *)
Definition heap_ok (s : @state scalar) (l : loc) : Prop :=
  (heap s l = h0 l ∧ ∀ i, tasks s !! i ≠ Some (Finished (Ok l))) ∨
  (∃ j c first,
      documents !! j = Some l ∧ tasks s !! j = Some (Finished (Ok l)) ∧
      h0 l !! "content" = Some c ∧
      first_item (endpoint j {| inputs := c; truncate := true |}) = inr first ∧
      heap s l = <["embedding" := VNumpy first]> (h0 l)).

(** The queue of [as_completed] and the loop of [main]. *)
Definition queue_ok (s : @state scalar) : Prop :=
  (∀ i, i ∈ done s → ∃ r, tasks s !! i = Some (Finished r)) ∧
  match main_st s with
  | Running n =>
      0 < n ∧ n = unfinished s + length (done s) ∧
      ∀ i e, tasks s !! i = Some (Finished (Err e)) → i ∈ done s
  | Returned =>
      unfinished s = 0 ∧ done s = [] ∧
      ∀ i e, tasks s !! i ≠ Some (Finished (Err e))
  | Raised e => ∃ i, tasks s !! i = Some (Finished (Err e))
  end.

Record inv (s : @state scalar) : Prop := Inv {
    inv_length : length (tasks s) = length documents;
    inv_bound : sem_bound s = max_workers;
    inv_slots : outstanding s + sem_value s = max_workers;
    inv_tasks : ∀ i t, tasks s !! i = Some t → task_ok s i t;
    inv_heap : ∀ l, heap_ok s l;
    inv_queue : queue_ok s
  }.

(** Steps a task still has to take. *)
Definition task_fuel (t : @task scalar) : nat :=
  match t with
  | Pending _ => 3
  | Waiting _ => 2
  | InFlight _ _ _ => 1
  | Finished _ => 0
  end.

Definition fuel (s : @state scalar) : nat := sum_list (task_fuel <$> tasks s).

End Invariants.

(** * Job sets and endpoints used to run the model *)

(** A record with a text and two more fields. *)
Definition demo_store (l : loc) : gmap string (@value Z) :=
  {[ "content" := VStr (String.concat "" (replicate l "ab" ++ ["text"]));
     "title" := VStr "post";
     "score" := VInt (Z.of_nat l) ]}.

(** An endpoint that answers every request with two vectors of two numbers. *)
Definition demo_endpoint (i : nat) (p : @payload Z) : @response Z :=
  Returns (Some (vectors [[Z.of_nat i; 1%Z]; [7%Z; 0%Z]])).

(** An endpoint keyed by the text: one vector holding the length of the text. *)
Definition text_endpoint (p : @payload Z) : @response Z :=
  match inputs p with
  | VStr t => Returns (Some (vectors [[Z.of_nat (String.length t); 2%Z]]))
  | _ => Raises (BadStatus 422)
  end.

(** An endpoint that rejects every fifth request. *)
Definition every_fifth_fails (i : nat) (p : @payload Z) : @response Z :=
  if decide (S i mod 5 = 0) then Raises (BadStatus 500) else demo_endpoint i p.

(** An endpoint that times out and one that returns an empty list. *)
Definition timeout_endpoint (i : nat) (p : @payload Z) : @response Z :=
  Raises Timeout.

Definition empty_endpoint (i : nat) (p : @payload Z) : @response Z :=
  Returns (Some (JList [])).

(** Endpoints that return vectors of different lengths, a flat list of
    numbers, and a JSON object. *)
Definition ragged_endpoint (i : nat) (p : @payload Z) : @response Z :=
  Returns (Some (vectors [[1%Z; 2%Z]; [3%Z]])).


Definition object_endpoint (i : nat) (p : @payload Z) : @response Z :=
  Returns (Some (JAtom (AObject 1))).

(** All tasks are started, then each reply is followed by an await. *)
Definition eager_schedule (n : nat) : list label :=
  (Sched <$> seq 0 n) ++ flat_map (λ i, [Reply i; Await]) (seq 0 n).

(** The loop first runs every task once, so that five take a slot and the
    others wait; the first five replies arrive and [main] is resumed
    [awaits] times; then the waiting tasks are woken five at a time. *)
Definition wave (b : nat) : list label :=
  (Sched <$> seq (5 * b) 5) ++ (Reply <$> seq (5 * b) 5).

Definition wave_schedule (n waves awaits : nat) : list label :=
  (Sched <$> seq 0 n) ++ (Reply <$> seq 0 5) ++ replicate awaits Await ++
  flat_map wave (seq 1 (waves - 1)).

(** The state a schedule leads to, when every step of it can be taken. *)
Definition can_run {scalar : Type} (endpoint : nat → @payload scalar → response)
    (ls : list label) (s : state) : bool :=
  match exec endpoint ls s with Some _ => true | None => false end.

Definition run_to {scalar : Type} (endpoint : nat → @payload scalar → response)
    (ls : list label) (s : state) : state :=
  default s (exec endpoint ls s).

(** The documents of the requests in flight, by position of their task. *)
Definition in_flight_documents (s : @state Z) : list loc :=
  omap (λ t, match t with InFlight d _ _ => Some d | _ => None end) (tasks s).

Definition succeeded (t : @task Z) : bool :=
  match t with Finished (Ok _) => true | _ => false end.

Definition failed (t : @task Z) : bool :=
  match t with Finished (Err _) => true | _ => false end.

(** What is observed of a final state: the status of [main], how many
    tasks succeeded and failed, and how many requests were sent. *)
Definition summary (s : @state Z) : main_status * nat * nat * nat :=
  (main_st s,
   length (filter (λ t, succeeded t = true) (tasks s)),
   length (filter (λ t, failed t = true) (tasks s)),
   length (sent s)).

(** * The cells around [main]

    [ROW_COUNT] caps the rows taken from the dataset; after [main] a cell
    counts the records that carry an embedding of 768 numbers. *)

Definition ROW_COUNT : option Z := Some 100%Z.

(** [rows[:stop]]: the slice of a list with the start left out. *)
Definition slice_to {A : Type} (stop : option Z) (rows : list A) : list A :=
  match stop with
  | None => rows
  | Some n =>
      if decide (0 ≤ n)%Z then take (Z.to_nat n) rows
      else take (length rows - Z.to_nat (- n)) rows
  end.



(** ** Measures of a run *)

(** Futures [main] has still to await. *)
Definition remaining (m : main_status) : nat :=
  match m with
  | Running n => n
  | Returned | Raised _ => 0
  end.

(** Steps a run can still take. *)
Definition budget {scalar : Type} (s : @state scalar) : nat :=
  fuel s + remaining (main_st s).

Definition is_await (a : label) : bool :=
  match a with Await => true | _ => false end.

(** How often a schedule resumes [main]. *)
Definition await_count (ls : list label) : nat :=
  length (filter (λ a, is_await a = true) ls).

(** A task whose request has been sent. *)
Definition has_posted {scalar : Type} (t : @task scalar) : bool :=
  match t with
  | InFlight _ _ _ => true
  | Finished (Ok _) => true
  | Finished (Err (ClientError _)) => true
  | Finished (Err JSONDecodeError) => true
  | Finished (Err IndexError) => true
  | Finished (Err (ValueError InhomogeneousShape)) => true
  | _ => false
  end.

(** A record that has one text and nothing else, and a vector of 768 zeros. *)
Definition bare_store (l : loc) : gmap string (@value Z) :=
  {[ "content" := VStr "text" ]}.

Definition no_content_store (l : loc) : gmap string (@value Z) :=
  {[ "title" := VStr "post" ]}.


(** * Counting in a list updated by index *)

Section Counting.

Context {A : Type} (P : A → Prop) `{!∀ x, Decision (P x)}.

Lemma count_insert (l : list A) (i : nat) (x y : A) :
  l !! i = Some x →
  length (filter P (<[i:=y]> l)) + weight P x = length (filter P l) + weight P y.
Proof.
  unfold weight. revert i. induction l as [|z l IH]; intros [|i] Hi; simplify_eq/=.
  - rewrite !filter_cons. repeat case_decide; simpl; lia.
  - specialize (IH i Hi). rewrite !filter_cons.
    destruct (decide (P z)); simpl; lia.
Qed.

Lemma count_pos_lookup (l : list A) :
  0 < length (filter P l) → ∃ i x, l !! i = Some x ∧ P x.
Proof.
  induction l as [|z l IH]; simpl; [lia|].
  rewrite filter_cons. destruct (decide (P z)) as [Hz|Hz].
  - intros _. by exists 0, z.
  - intros Hl. destruct (IH Hl) as (i & x & Hi & Hx). by exists (S i), x.
Qed.

Lemma count_zero_lookup (l : list A) (i : nat) (x : A) :
  length (filter P l) = 0 → l !! i = Some x → ¬ P x.
Proof.
  intros Hl Hi Hx. apply length_zero_iff_nil in Hl.
  assert (x ∈ filter P l) as Hin.
  { apply list_elem_of_filter. split; [done|]. by eapply list_elem_of_lookup_2. }
  rewrite Hl in Hin. by apply not_elem_of_nil in Hin.
Qed.

Lemma sum_insert (f : A → nat) (l : list A) (i : nat) (x y : A) :
  l !! i = Some x →
  sum_list (f <$> <[i:=y]> l) + f x = sum_list (f <$> l) + f y.
Proof.
  revert i. induction l as [|z l IH]; intros [|i] Hi; simplify_eq/=; [lia|].
  specialize (IH i Hi). lia.
Qed.

End Counting.

(** * What the reply gives *)

Section Replies.

Context {scalar : Type}.

Lemma first_item_inl (r : @response scalar) (e : exn) :
  first_item r = inl e →
  (∃ pe, e = ClientError pe) ∨ e = JSONDecodeError ∨ e = IndexError ∨
  e = ValueError InhomogeneousShape.
Proof.
  unfold first_item, np_array. destruct r as [pe|[j|]]; [| |naive_solver].
  - intros ?. simplify_eq. eauto.
  - destruct (shape j) as [sh|]; [|naive_solver].
    case_decide; [|naive_solver].
    destruct (getitem0 j); naive_solver.
Qed.

(** An item is obtained exactly from a list that has a first item and of
    which [np.array] makes an array. *)
Lemma first_item_inr (r : @response scalar) (first : json) :
  first_item r = inr first ↔
  ∃ rest sh, r = Returns (Some (JList (first :: rest))) ∧
             shape (JList (first :: rest)) = Some sh ∧
             length sh ≤ NPY_MAXDIMS.
Proof.
  unfold first_item, np_array. split.
  - destruct r as [pe|[j|]]; [done| |done].
    destruct (shape j) as [sh|] eqn:Hsh; [|done].
    case_decide; [|done].
    destruct j as [x|a|[|item rest]]; simpl; try done.
    intros ?. simplify_eq. eauto.
  - intros (rest & sh & -> & -> & Hle). by case_decide.
Qed.




Lemma request_resume_inl (d : loc) (r : @response scalar) (e : exn)
    (h : loc → gmap string value) :
  first_item r = inl e → request_resume d r h = (h, Err e).
Proof. unfold request_resume. by intros ->. Qed.

Lemma request_resume_inr (d : loc) (r : @response scalar) (first : json)
    (h : loc → gmap string value) :
  first_item r = inr first →
  request_resume d r h = (<[d := <["embedding" := VNumpy first]> (h d)]> h, Ok d).
Proof. unfold request_resume. by intros ->. Qed.

End Replies.

(** * The initial state and the shape of a step *)

Section Steps.

Context {scalar : Type}.
Variable documents : list loc.
Variable max_workers : nat.
Variable h0 : loc → gmap string (@value scalar).
Variable endpoint : nat → @payload scalar → @response scalar.

Local Abbreviation run_inv := (inv documents max_workers h0 endpoint).
Local Abbreviation run_task_ok := (task_ok documents h0 endpoint).
Local Abbreviation run_heap_ok := (heap_ok documents h0 endpoint).

Lemma pending_not_in_flight (ds : list loc) :
  filter (λ t : @task scalar, is_in_flight t = true) (Pending <$> ds) = [].
Proof.
  induction ds as [|d ds IH]; [done|]. rewrite fmap_cons, filter_cons.
  case_decide; [done|]. exact IH.
Qed.

Lemma pending_unfinished (ds : list loc) :
  length (filter (λ t : @task scalar, is_finished t = false) (Pending <$> ds))
  = length ds.
Proof.
  induction ds as [|d ds IH]; [done|]. rewrite fmap_cons, filter_cons.
  case_decide; [simpl; by rewrite IH | done].
Qed.

Lemma loop_spec (n : nat) :
  match loop n with
  | Running k => 0 < k ∧ k = n
  | Returned => n = 0
  | Raised _ => False
  end.
Proof. destruct n; simpl; [done|]. split; [lia|done]. Qed.

Lemma inv_main : run_inv (main documents max_workers h0).
Proof.
  split; simpl.
  - by rewrite length_fmap.
  - done.
  - unfold outstanding. simpl. by rewrite pending_not_in_flight.
  - intros i t Hi. rewrite list_lookup_fmap in Hi.
    destruct (documents !! i) as [d|] eqn:Hd; simplify_eq/=. by split.
  - intros l. left. split; [done|]. intros i Hi. simpl in Hi.
    rewrite list_lookup_fmap in Hi. destruct (documents !! i); simplify_eq/=.
  - assert (∀ i e, (@Pending scalar <$> documents) !! i ≠ Some (Finished (Err e)))
      as Hne.
    { intros i e Hi. rewrite list_lookup_fmap in Hi.
      destruct (documents !! i); simplify_eq/=. }
    split; [intros i Hi; simpl in Hi; by apply not_elem_of_nil in Hi|]. simpl.
    pose proof (pending_unfinished documents) as Hu.
    pose proof (loop_spec (length documents)) as Hl.
    unfold unfinished. simpl. rewrite Hu.
    destruct (loop (length documents)) as [n| |e]; [|done..].
    destruct Hl as [Hn ->]. split_and!; [done|lia|].
    intros i e Hi. by apply Hne in Hi.
Qed.

(** The five kinds of step. *)
Lemma step_cases (a : label) (s s' : @state scalar) :
  step endpoint a s = Some s' →
  (∃ i d, a = Sched i ∧ tasks s !! i = Some (Pending d) ∧ sem_value s = 0 ∧
          s' = set_task i (Waiting d) s) ∨
  (∃ i d t, a = Sched i ∧ tasks s !! i = Some t ∧
            (t = Pending d ∨ t = Waiting d) ∧ 0 < sem_value s ∧
            s' = enter i d s) ∨
  (∃ i d p k, a = Reply i ∧ tasks s !! i = Some (InFlight d p k) ∧
              s' = finish i (k (endpoint i p) (heap s)).2
                     (set_heap (k (endpoint i p) (heap s)).1 s)) ∨
  (∃ i q n d, a = Await ∧ main_st s = Running (S n) ∧ done s = i :: q ∧
              tasks s !! i = Some (Finished (Ok d)) ∧
              s' = set_main q (loop n) s) ∨
  (∃ i q n e, a = Await ∧ main_st s = Running (S n) ∧ done s = i :: q ∧
              tasks s !! i = Some (Finished (Err e)) ∧
              s' = set_main q (Raised e) s).
Proof.
  intros Hs. destruct a as [i|i|]; simpl in Hs.
  - destruct (tasks s !! i) as [[d|d|d p k|r]|] eqn:Hi; simplify_eq.
    + case_decide; simplify_eq.
      * right; left. exists i, d, (Pending d). eauto 10.
      * left. exists i, d. split_and!; [done..|lia|done].
    + case_decide; simplify_eq.
      right; left. exists i, d, (Waiting d). eauto 10.
  - destruct (tasks s !! i) as [[d|d|d p k|r]|] eqn:Hi; simplify_eq.
    right; right; left. by exists i, d, p, k.
  - destruct (main_st s) as [[|n]| |] eqn:Hm; simplify_eq.
    destruct (done s) as [|i q] eqn:Hq; simplify_eq.
    destruct (tasks s !! i) as [[d|d|d p k|[d|e]]|] eqn:Hi; simplify_eq.
    + right; right; right; left. by exists i, q, n, d.
    + right; right; right; right. by exists i, q, n, e.
Qed.

(** ** Frame lemmas *)

Lemma task_ok_attempts (s s' : @state scalar) (i : nat) (t : @task scalar) :
  attempts i s' = attempts i s → run_task_ok s i t → run_task_ok s' i t.
Proof.
  intros Ha. destruct t as [d|d|d p k|[d|[key|e| | |[]]]]; unfold task_ok;
    rewrite ?Ha; done.
Qed.

Lemma heap_ok_frame (s s' : @state scalar) (l : loc) :
  heap s' l = heap s l →
  (∀ j, tasks s' !! j = Some (Finished (Ok l)) ↔
        tasks s !! j = Some (Finished (Ok l))) →
  run_heap_ok s l → run_heap_ok s' l.
Proof.
  intros Hh Ht [[Hl Hn]|(j & c & first & Hj & Hf & Hc & He & Hl)].
  - left. split; [congruence|]. intros i Hi. by apply Ht, Hn in Hi.
  - right. exists j, c, first. rewrite Ht, Hh. done.
Qed.

Lemma content_kept (s : @state scalar) (l : loc) :
  run_heap_ok s l → heap s l !! "content" = h0 l !! "content".
Proof.
  intros [[-> _]|(j & c & first & _ & _ & _ & _ & ->)]; [done|].
  by rewrite lookup_insert_ne.
Qed.

Lemma attempts_log (s : @state scalar) (i j : nat) (p : payload) :
  attempts j (log_post i p s) = attempts j s + (if decide (i = j) then 1 else 0).
Proof.
  unfold attempts. simpl. rewrite list.filter_app, length_app. f_equal.
  rewrite filter_cons, filter_nil. simpl. by repeat case_decide.
Qed.

(** A task moves between two states that are not final. *)
Lemma inv_retask (s s' : @state scalar) (i : nat) (t t' : @task scalar) :
  run_inv s → tasks s !! i = Some t →
  is_finished t = false → is_finished t' = false →
  heap s' = heap s → sem_bound s' = sem_bound s →
  tasks s' = <[i:=t']> (tasks s) → done s' = done s → main_st s' = main_st s →
  weight (λ t, is_in_flight t = true) t' + sem_value s'
    = weight (λ t, is_in_flight t = true) t + sem_value s →
  (∀ j, j ≠ i → attempts j s' = attempts j s) →
  run_task_ok s' i t' →
  run_inv s'.
Proof.
  intros [Hlen Hb Hsl Hts Hhp [Hq Hm]] Hi Hf Hf' Hh' Hb' Ht' Hd' Hm' Hw Hat Hok.
  assert (∀ j r, tasks s' !! j = Some (Finished r) ↔
                 tasks s !! j = Some (Finished r)) as Hfin.
  { intros j r. rewrite Ht', list_lookup_insert_Some. split.
    - intros [(_ & -> & _)|[_ ?]]; [done|done].
    - intros Hj. right. split; [|done]. intros <-. by simplify_eq. }
  split.
  - by rewrite Ht', length_insert.
  - congruence.
  - unfold outstanding in *. rewrite Ht'.
    pose proof (count_insert (λ t, is_in_flight t = true) _ _ _ t' Hi). lia.
  - intros j x Hj. rewrite Ht' in Hj.
    apply list_lookup_insert_Some in Hj as [(<- & <- & _)|[Hne Hj]]; [done|].
    eapply task_ok_attempts; [by apply Hat|by apply Hts].
  - intros l. eapply heap_ok_frame; [by rewrite Hh'|by intros j; apply Hfin|done].
  - assert (unfinished s' = unfinished s) as Hu.
    { unfold unfinished. rewrite Ht'.
      pose proof (count_insert (λ t, is_finished t = false) _ _ _ t' Hi) as Hc.
      unfold weight in Hc. rewrite Hf, Hf' in Hc. simpl in Hc. lia. }
    split.
    + intros j Hj. rewrite Hd' in Hj. destruct (Hq j Hj) as [r Hr].
      exists r. by apply Hfin.
    + rewrite Hm', Hd', Hu. destruct (main_st s) as [n| |e].
      * destruct Hm as (? & ? & He). split_and!; [done..|].
        intros j e Hj. apply Hfin in Hj. eauto.
      * destruct Hm as (? & ? & He). split_and!; [done..|].
        intros j e Hj. apply Hfin in Hj. by eapply He.
      * destruct Hm as [j Hj]. exists j. by apply Hfin.
Qed.

(** A task reaches its final state and gives its slot back. *)
Lemma inv_finished (s s' : @state scalar) (i : nat) (t : @task scalar) (r : result) :
  run_inv s → tasks s !! i = Some t → is_finished t = false →
  sem_bound s' = sem_bound s →
  tasks s' = <[i:=Finished r]> (tasks s) → done s' = done s ++ [i] →
  main_st s' = main_st s → sent s' = sent s →
  sem_value s' = weight (λ t, is_in_flight t = true) t + sem_value s →
  run_task_ok s' i (Finished r) →
  (∀ l, run_heap_ok s' l) →
  run_inv s'.
Proof.
  intros [Hlen Hb Hsl Hts Hhp [Hq Hm]] Hi Hf Hb' Ht' Hd' Hm' Hs' Hv Hok Hh.
  assert (i < length (tasks s)) as Hlt by by eapply lookup_lt_Some.
  assert (∀ j x, j ≠ i → tasks s' !! j = Some x ↔ tasks s !! j = Some x) as Hne.
  { intros j x Hj. by rewrite Ht', list_lookup_insert_ne. }
  assert (∀ j x, tasks s !! j = Some (Finished x) → j ≠ i) as Hold.
  { intros j x Hj ->. by simplify_eq. }
  assert (tasks s' !! i = Some (Finished r)) as Hnew.
  { by rewrite Ht', list_lookup_insert_eq. }
  split.
  - by rewrite Ht', length_insert.
  - congruence.
  - unfold outstanding in *. rewrite Ht'.
    pose proof (count_insert (λ t, is_in_flight t = true) _ _ _ (Finished r) Hi)
      as Hc.
    unfold weight at 2 in Hc. simpl in Hc. lia.
  - intros j x Hj. destruct (decide (j = i)) as [->|Hji].
    + rewrite Hnew in Hj. by simplify_eq.
    + eapply task_ok_attempts; [unfold attempts; by rewrite Hs'|].
      apply Hts. by apply Hne.
  - done.
  - assert (unfinished s' + 1 = unfinished s) as Hu.
    { unfold unfinished. rewrite Ht'.
      pose proof (count_insert (λ t, is_finished t = false) _ _ _ (Finished r) Hi)
        as Hc.
      unfold weight in Hc. rewrite Hf in Hc. simpl in Hc. lia. }
    split.
    + intros j Hj. rewrite Hd' in Hj. apply elem_of_app in Hj as [Hj|Hj].
      * destruct (Hq j Hj) as [x Hx]. exists x. apply Hne; [by eapply Hold|done].
      * apply list_elem_of_singleton in Hj as ->. by exists r.
    + rewrite Hm', Hd', length_app. simpl. destruct (main_st s) as [n| |e].
      * destruct Hm as (? & ? & He). split_and!; [done|lia|].
        intros j e Hj. apply elem_of_app. destruct (decide (j = i)) as [->|Hji].
        -- right. by apply list_elem_of_singleton.
        -- left. eapply He. by apply Hne.
      * destruct Hm as (Hz & _ & _). exfalso.
        by eapply (count_zero_lookup (λ t, is_finished t = false)).
      * destruct Hm as [j Hj]. exists j. apply Hne; [by eapply Hold|done].
Qed.

Lemma finish_released (i : nat) (r : result) (s : @state scalar) :
  sem_value s < sem_bound s →
  finish i r s = push_done i (set_task i (Finished r) (set_sem (S (sem_value s)) s)).
Proof. intros Hlt. unfold finish, release. case_decide; [lia|done]. Qed.

Lemma in_flight_counted (s : @state scalar) (i : nat) (d : loc) p k :
  tasks s !! i = Some (InFlight d p k) → 0 < outstanding s.
Proof.
  intros Hi. destruct (outstanding s) as [|n] eqn:Hn; [|lia]. exfalso.
  by eapply (count_zero_lookup (λ t, is_in_flight t = true)).
Qed.

(** ** Every step keeps the invariant *)

Lemma inv_enter (s : @state scalar) (i : nat) (d : loc) (t : @task scalar) :
  run_inv s → tasks s !! i = Some t → t = Pending d ∨ t = Waiting d →
  0 < sem_value s → run_inv (enter i d s).
Proof.
  intros Hinv Hi Ht Hv.
  assert (documents !! i = Some d ∧ attempts i s = 0) as [Hd Ha].
  { pose proof (inv_tasks _ _ _ _ _ Hinv i t Hi) as Hok.
    by destruct Ht as [-> | ->]. }
  assert (is_finished t = false ∧ is_in_flight t = false) as [Hf Hfl].
  { by destruct Ht as [-> | ->]. }
  pose proof (content_kept s d (inv_heap _ _ _ _ _ Hinv d)) as Hc.
  unfold enter, request. simpl. rewrite Hc.
  destruct (h0 d !! "content") as [c|] eqn:Hc0.
  - eapply (inv_retask s _ i t (InFlight d {| inputs := c; truncate := true |}
              (request_resume d))); try done.
    + unfold weight. destruct Ht as [-> | ->]; simpl; lia.
    + intros j Hj. rewrite attempts_log. case_decide; [congruence|].
      unfold attempts. simpl. lia.
    + split_and!; [done|by exists c|done|].
      rewrite attempts_log. case_decide; [|done]. unfold attempts in *. simpl.
      by rewrite Ha.
  - rewrite finish_released.
    2:{ simpl. pose proof (inv_slots _ _ _ _ _ Hinv).
        rewrite (inv_bound _ _ _ _ _ Hinv). lia. }
    eapply (inv_finished s _ i t); try done.
    + unfold weight. destruct Ht as [-> | ->]; simpl; lia.
    + split_and!; [done|done|]. by exists d.
    + intros l. eapply (heap_ok_frame s); [done| |by apply (inv_heap _ _ _ _ _ Hinv)].
      intros j. simpl. rewrite list_lookup_insert_Some. split.
      * intros [(_ & ? & _)|[_ ?]]; [done|done].
      * intros Hj. right. split; [|done]. intros <-. simplify_eq.
Qed.

Lemma inv_reply (s : @state scalar) (i : nat) (d : loc) p k :
  run_inv s → tasks s !! i = Some (InFlight d p k) →
  run_inv (finish i (k (endpoint i p) (heap s)).2
             (set_heap (k (endpoint i p) (heap s)).1 s)).
Proof.
  intros Hinv Hi.
  destruct (inv_tasks _ _ _ _ _ Hinv i _ Hi) as (Hd & (c & Hc & ->) & -> & Ha).
  pose proof (in_flight_counted s i d _ _ Hi) as Hpos.
  rewrite finish_released.
  2:{ simpl. pose proof (inv_slots _ _ _ _ _ Hinv).
      rewrite (inv_bound _ _ _ _ _ Hinv). lia. }
  set (p := {| inputs := c; truncate := true |}) in *.
  assert (payload_of h0 d p) as Hp by by exists c.
  assert (∀ e l, run_heap_ok
     (push_done i (set_task i (Finished (Err e)) (set_sem (S (sem_value s)) s))) l)
    as Hfail.
  { intros e l. eapply (heap_ok_frame s); [done| |by apply (inv_heap _ _ _ _ _ Hinv)].
    intros j. simpl. rewrite list_lookup_insert_Some. split.
    - intros [(_ & ? & _)|[_ ?]]; [done|done].
    - intros Hj. right. split; [|done]. intros <-. simplify_eq. }
  destruct (first_item (endpoint i p)) as [e|first] eqn:He.
  - rewrite (request_resume_inl _ _ e) by done. simpl.
    eapply (inv_finished s _ i _ (Err e)); try done.
    assert (failure_of (endpoint i p) = Some e) as Hf
      by (unfold failure_of; by rewrite He).
    destruct (first_item_inl _ _ He) as [[pe ->]|[->|[->| ->]]];
      (split; [done|]; by exists d, p).
  - rewrite (request_resume_inr _ _ first) by done. simpl.
    eapply (inv_finished s _ i _ (Ok d)); try done.
    + split_and!; [done..|]. exists p. split; [done|].
      unfold failure_of. by rewrite He.
    + intros l. destruct (decide (l = d)) as [->|Hl].
      * right. exists i, c, first. simpl.
        rewrite list_lookup_insert_eq by by eapply lookup_lt_Some.
        split_and!; [done..|]. rewrite fn_lookup_insert.
        destruct (inv_heap _ _ _ _ _ Hinv d)
          as [[-> _]|(? & ? & ? & _ & _ & _ & _ & ->)]; [done|].
        by rewrite insert_insert_eq.
      * eapply (heap_ok_frame s); [| |by apply (inv_heap _ _ _ _ _ Hinv l)].
        { simpl. by rewrite fn_lookup_insert_ne. }
        intros j. simpl. rewrite list_lookup_insert_Some. split.
        -- intros [(_ & ? & _)|[_ ?]]; [congruence|done].
        -- intros Hj. right. split; [|done]. intros <-. simplify_eq.
Qed.

Lemma inv_await (s : @state scalar) (i : nat) (q : list nat) (n : nat) (r : result) :
  run_inv s → main_st s = Running (S n) → done s = i :: q →
  tasks s !! i = Some (Finished r) →
  run_inv (set_main q (match r with Ok _ => loop n | Err e => Raised e end) s).
Proof.
  intros [Hlen Hb Hsl Hts Hhp [Hq Hm]] Hmain Hdone Hi.
  split; try done.
  rewrite Hmain, Hdone in Hm. destruct Hm as (_ & Hn & He). simpl in Hn.
  split; simpl.
  - intros j Hj. apply Hq. rewrite Hdone. by right.
  - destruct r as [d|e]; [|by exists i].
    assert (∀ j e, tasks s !! j = Some (Finished (Err e)) → j ∈ q) as He'.
    { intros j e Hj. specialize (He j e Hj).
      apply elem_of_cons in He as [->|?]; [|done]. simplify_eq. }
    destruct n as [|n]; simpl.
    + assert (q = []) as -> by (destruct q; [done|simpl in Hn; lia]).
      split_and!; [unfold unfinished in *; simpl in *; lia|done|].
      intros j e Hj. apply He' in Hj. by apply not_elem_of_nil in Hj.
    + split_and!; [lia|unfold unfinished in *; simpl; lia|done].
Qed.

Lemma inv_step (a : label) (s s' : @state scalar) :
  run_inv s → step endpoint a s = Some s' → run_inv s'.
Proof.
  intros Hinv Hs.
  destruct (step_cases a s s' Hs)
    as [(i & d & -> & Hi & Hv & ->)
       |[(i & d & t & -> & Hi & Ht & Hv & ->)
       |[(i & d & p & k & -> & Hi & ->)
       |[(i & q & n & d & -> & Hm & Hq & Hi & ->)
        |(i & q & n & e & -> & Hm & Hq & Hi & ->)]]]].
  - pose proof (inv_tasks _ _ _ _ _ Hinv i _ Hi) as Hok.
    eapply (inv_retask s _ i (Pending d) (Waiting d)); done.
  - by eapply inv_enter.
  - by eapply inv_reply.
  - by apply (inv_await s i q n (Ok d)).
  - by apply (inv_await s i q n (Err e)).
Qed.

Lemma inv_exec (ls : list label) (s s' : @state scalar) :
  run_inv s → exec endpoint ls s = Some s' → run_inv s'.
Proof.
  revert s. induction ls as [|a ls IH]; intros s Hinv Hs; simpl in Hs.
  - by simplify_eq.
  - destruct (step endpoint a s) as [s1|] eqn:Ha; [|done].
    eapply IH; [|done]. by eapply inv_step.
Qed.

Lemma inv_run (ls : list label) (s : @state scalar) :
  exec endpoint ls (main documents max_workers h0) = Some s → run_inv s.
Proof. apply inv_exec, inv_main. Qed.

(** ** What a step does to the tasks, the log and the semaphore *)

Lemma tasks_finish (i : nat) (r : result) (s : @state scalar) :
  ∃ r', tasks (finish i r s) = <[i:=Finished r']> (tasks s).
Proof. unfold finish, release. case_decide; simpl; eauto. Qed.

Lemma tasks_enter (i : nat) (d : loc) (s : @state scalar) :
  ∃ t, tasks (enter i d s) = <[i:=t]> (tasks s) ∧ task_fuel t ≤ 1.
Proof.
  unfold enter, request. simpl. destruct (heap s d !! "content"); simpl.
  - eexists. split; [done|]. simpl. lia.
  - destruct (tasks_finish i (Err (KeyError "content"))
                (set_sem (pred (sem_value s)) s)) as [r Hr].
    eexists. split; [done|]. simpl. lia.
Qed.

Lemma finished_step (a : label) (s s' : @state scalar) (i : nat) (r : result) :
  step endpoint a s = Some s' →
  tasks s !! i = Some (Finished r) → tasks s' !! i = Some (Finished r).
Proof.
  intros Hs Hi.
  destruct (step_cases a s s' Hs)
    as [(j & d & -> & Hj & Hv & ->)
       |[(j & d & t & -> & Hj & Ht & Hv & ->)
       |[(j & d & p & k & -> & Hj & ->)
       |[(j & q & n & d & -> & Hm & Hq & Hj & ->)
        |(j & q & n & e & -> & Hm & Hq & Hj & ->)]]]]; try done.
  - simpl. rewrite list_lookup_insert_ne; [done|]. intros ->. simplify_eq.
  - destruct (tasks_enter j d s) as (t' & -> & _).
    rewrite list_lookup_insert_ne; [done|]. intros ->. simplify_eq.
    by destruct Ht.
  - destruct (tasks_finish j (k (endpoint j p) (heap s)).2
                (set_heap (k (endpoint j p) (heap s)).1 s)) as [r' ->].
    simpl. rewrite list_lookup_insert_ne; [done|]. intros ->. simplify_eq.
Qed.

Lemma finished_exec (ls : list label) (s s' : @state scalar) (i : nat) (r : result) :
  exec endpoint ls s = Some s' →
  tasks s !! i = Some (Finished r) → tasks s' !! i = Some (Finished r).
Proof.
  revert s. induction ls as [|a ls IH]; intros s Hs Hi; simpl in Hs.
  - by simplify_eq.
  - destruct (step endpoint a s) as [s1|] eqn:Ha; [|done].
    eapply IH; [done|]. by eapply finished_step.
Qed.

(** A request is logged only by a task that takes a slot. *)
Lemma sent_step (a : label) (s s' : @state scalar) :
  run_inv s → step endpoint a s = Some s' →
  sent s' = sent s ∨
  ∃ i d p, a = Sched i ∧ documents !! i = Some d ∧ payload_of h0 d p ∧
           0 < sem_value s ∧ sem_value s' = pred (sem_value s) ∧
           sent s' = sent s ++ [(i, p)].
Proof.
  intros Hinv Hs.
  destruct (step_cases a s s' Hs)
    as [(j & d & -> & Hj & Hv & ->)
       |[(j & d & t & -> & Hj & Ht & Hv & ->)
       |[(j & d & p & k & -> & Hj & ->)
       |[(j & q & n & d & -> & Hm & Hq & Hj & ->)
        |(j & q & n & e & -> & Hm & Hq & Hj & ->)]]]]; try by left.
  - assert (documents !! j = Some d) as Hd.
    { pose proof (inv_tasks _ _ _ _ _ Hinv j t Hj) as Hok.
      destruct Ht as [-> | ->]; apply Hok. }
    pose proof (content_kept s d (inv_heap _ _ _ _ _ Hinv d)) as Hc.
    unfold enter, request. simpl. rewrite Hc.
    destruct (h0 d !! "content") as [c|] eqn:Hc0.
    + right. exists j, d, {| inputs := c; truncate := true |}.
      split_and!; try done. by exists c.
    + left. unfold finish, release. by case_decide.
  - left. unfold finish, release. by case_decide.
Qed.

Lemma sent_exec (ls : list label) (s s' : @state scalar) :
  run_inv s →
  (∀ i p, (i, p) ∈ sent s → ∃ d, documents !! i = Some d ∧ payload_of h0 d p) →
  exec endpoint ls s = Some s' →
  ∀ i p, (i, p) ∈ sent s' → ∃ d, documents !! i = Some d ∧ payload_of h0 d p.
Proof.
  revert s. induction ls as [|a ls IH]; intros s Hinv Hsent Hs; simpl in Hs.
  - by simplify_eq.
  - destruct (step endpoint a s) as [s1|] eqn:Ha; [|done].
    eapply (IH s1); [by eapply inv_step| |done].
    destruct (sent_step a s s1 Hinv Ha)
      as [->|(j & d & p & _ & Hd & Hp & _ & _ & ->)]; [done|].
    intros i p' Hin. apply elem_of_app in Hin as [Hin|Hin]; [by apply Hsent|].
    apply list_elem_of_singleton in Hin. simplify_eq. by exists d.
Qed.

Lemma sent_run (ls : list label) (s : @state scalar) :
  exec endpoint ls (main documents max_workers h0) = Some s →
  ∀ i p, (i, p) ∈ sent s → ∃ d, documents !! i = Some d ∧ payload_of h0 d p.
Proof.
  intros Hs. eapply sent_exec; [apply inv_main| |done].
  intros i p Hin. simpl in Hin. by apply not_elem_of_nil in Hin.
Qed.

Lemma attempted_sent (s : @state scalar) (i : nat) :
  0 < attempts i s → ∃ p, (i, p) ∈ sent s.
Proof.
  intros Ha. apply count_pos_lookup in Ha as (n & [j p] & Hn & Hj).
  simpl in Hj. subst j. exists p. by eapply list_elem_of_lookup_2.
Qed.

End Steps.

(** * Properties of the client *)

Section Claims.

Context {scalar : Type}.
Variable documents : list loc.
Variable max_workers : nat.
Variable h0 : loc → gmap string (@value scalar).
Variable endpoint : nat → @payload scalar → @response scalar.

Local Abbreviation start := (main documents max_workers h0).

(** C1. At every instant of a run the number of requests sent and not yet
    answered is at most the concurrency limit. The requests in flight and
    the free slots of the semaphore always add up to the limit; a step that
    sends a request takes a free slot, so that with [max_workers] requests
    in flight no request is sent; and the reply to a request, whether it
    makes the task succeed or fail, gives the slot back. *)
Theorem outstanding_requests_bounded (ls : list label) (s : @state scalar) :
  exec endpoint ls start = Some s →
  outstanding s ≤ max_workers ∧
  outstanding s + sem_value s = max_workers ∧
  ∀ a s', step endpoint a s = Some s' →
    (length (sent s) < length (sent s') →
       outstanding s < max_workers ∧ 0 < sem_value s ∧
       sem_value s' = pred (sem_value s) ∧ outstanding s' = S (outstanding s)) ∧
    (outstanding s = max_workers → sent s' = sent s) ∧
    (∀ i, a = Reply i →
       sem_value s' = S (sem_value s) ∧ S (outstanding s') = outstanding s).
Proof.
  intros Hs. pose proof (inv_run _ _ _ _ _ _ Hs) as Hinv.
  pose proof (inv_slots _ _ _ _ _ Hinv) as Hsl.
  split_and!; [lia|done|]. intros a s' Ha.
  pose proof (inv_step _ _ _ _ _ _ _ Hinv Ha) as Hinv'.
  pose proof (inv_slots _ _ _ _ _ Hinv') as Hsl'.
  pose proof (sent_step _ _ _ _ _ _ _ Hinv Ha) as Hsent.
  split_and!.
  - intros Hlen. destruct Hsent as [Heq|(i & d & p & _ & _ & _ & Hv & Hv' & _)].
    + rewrite Heq in Hlen. lia.
    + split_and!; [lia|done|done|lia].
  - intros Hfull. destruct Hsent as [Heq|(i & d & p & _ & _ & _ & Hv & _)]; [done|lia].
  - intros i ->. simpl in Ha.
    destruct (tasks s !! i) as [[d|d|d p k|r]|] eqn:Hi; simplify_eq.
    pose proof (in_flight_counted s i d p k Hi) as Hpos.
    pose proof (inv_bound _ _ _ _ _ Hinv) as Hb.
    rewrite finish_released in Hsl' |- * by (simpl; lia).
    simpl in *. split; [done|]. unfold outstanding in *. simpl in *. lia.
Qed.

(** C5. The embedding step changes no field of any record other than
    ['embedding']: in every state of a run each record has, under every
    other key, what it had when it was submitted; and the part of [request]
    that runs on a reply touches only the key ['embedding'] of its own
    document. *)
Theorem other_fields_unchanged (ls : list label) (s : @state scalar) :
  exec endpoint ls start = Some s →
  (∀ l key, key ≠ "embedding" → heap s l !! key = h0 l !! key) ∧
  (∀ d (r : @response scalar) (h : loc → gmap string (@value scalar)) l key,
     key ≠ "embedding" ∨ l ≠ d →
     (request_resume d r h).1 l !! key = h l !! key).
Proof.
  intros Hs. pose proof (inv_run _ _ _ _ _ _ Hs) as Hinv. split.
  - intros l key Hkey.
    destruct (inv_heap _ _ _ _ _ Hinv l)
      as [[-> _]|(j & c & first & _ & _ & _ & _ & ->)]; [done|].
    by rewrite lookup_insert_ne.
  - intros d r h l key Hne. unfold request_resume.
    destruct (first_item r) as [e|first]; simpl; [done|].
    destruct (decide (l = d)) as [->|Hl].
    + rewrite fn_lookup_insert. destruct Hne as [Hkey|]; [|done].
      by rewrite lookup_insert_ne.
    + by rewrite fn_lookup_insert_ne.
Qed.

(** C8. Every request the client sends carries the whole ['content'] of the
    record of its task and the flag [truncate = true]; [request] sends
    whatever the content is, of any length, without inspecting it. *)
Theorem payload_carries_full_content (ls : list label) (s : @state scalar) :
  exec endpoint ls start = Some s →
  (∀ i p, (i, p) ∈ sent s →
     ∃ d c, documents !! i = Some d ∧ h0 d !! "content" = Some c ∧
            inputs p = c ∧ truncate p = true) ∧
  (∀ d c (h : loc → gmap string (@value scalar)), h d !! "content" = Some c →
     request d h = AwaitPost {| inputs := c; truncate := true |}
                     (request_resume d)).
Proof.
  intros Hs. split.
  - intros i p Hin.
    destruct (sent_run _ _ _ _ _ _ Hs i p Hin) as (d & Hd & c & Hc & ->).
    by exists d, c.
  - intros d c h Hc. unfold request. by rewrite Hc.
Qed.


(** ** Finished runs *)

Lemma finished_ok_sent (ls : list label) (s : @state scalar) (i : nat) (d : loc) c :
  exec endpoint ls start = Some s →
  tasks s !! i = Some (Finished (Ok d)) → h0 d !! "content" = Some c →
  (i, {| inputs := c; truncate := true |}) ∈ sent s.
Proof.
  intros Hs Hi Hc. pose proof (inv_run _ _ _ _ _ _ Hs) as Hinv.
  destruct (inv_tasks _ _ _ _ _ Hinv i _ Hi) as (Hd & Ha & _).
  destruct (attempted_sent s i) as [p Hin]; [lia|].
  destruct (sent_run _ _ _ _ _ _ Hs i p Hin) as (d' & Hd' & c' & Hc' & ->).
  by simplify_eq.
Qed.

Lemma all_finished (s : @state scalar) (i : nat) (d : loc) :
  inv documents max_workers h0 endpoint s → unfinished s = 0 →
  documents !! i = Some d → ∃ r, tasks s !! i = Some (Finished r).
Proof.
  intros Hinv Hu Hd.
  destruct (tasks s !! i) as [t|] eqn:Hi.
  - pose proof (count_zero_lookup (λ t, is_finished t = false) _ i t Hu Hi) as Hf.
    destruct t; simpl in Hf; try done. eauto.
  - apply lookup_ge_None in Hi. apply lookup_lt_Some in Hd.
    rewrite (inv_length _ _ _ _ _ Hinv) in Hi. lia.
Qed.

Lemma returned_all_ok (s : @state scalar) (i : nat) (d : loc) :
  inv documents max_workers h0 endpoint s → main_st s = Returned →
  documents !! i = Some d → tasks s !! i = Some (Finished (Ok d)).
Proof.
  intros Hinv Hm Hd. destruct (inv_queue _ _ _ _ _ Hinv) as [_ Hq].
  rewrite Hm in Hq. destruct Hq as (Hu & _ & Hne).
  destruct (all_finished s i d Hinv Hu Hd) as [[d'|e] Hi].
  - destruct (inv_tasks _ _ _ _ _ Hinv i _ Hi) as (Hd' & _). congruence.
  - by apply Hne in Hi.
Qed.

(** The record of a task that returned carries the first item of the
    reply to a request made for that record. *)
Lemma annotated (s : @state scalar) (i : nat) (d : loc) :
  inv documents max_workers h0 endpoint s →
  tasks s !! i = Some (Finished (Ok d)) →
  ∃ j c first rest,
    documents !! j = Some d ∧ (NoDup documents → j = i) ∧
    tasks s !! j = Some (Finished (Ok d)) ∧
    h0 d !! "content" = Some c ∧
    endpoint j {| inputs := c; truncate := true |}
      = Returns (Some (JList (first :: rest))) ∧
    first_item (endpoint j {| inputs := c; truncate := true |}) = inr first ∧
    heap s d = <["embedding" := VNumpy first]> (h0 d).
Proof.
  intros Hinv Hi.
  destruct (inv_tasks _ _ _ _ _ Hinv i _ Hi) as (Hd & _).
  destruct (inv_heap _ _ _ _ _ Hinv d)
    as [[_ Hn]|(j & c & first & Hj & Hf & Hc & He & Hh)]; [by apply Hn in Hi|].
  destruct (proj1 (first_item_inr _ _) He) as (rest & sh & Hr & _).
  exists j, c, first, rest. split_and!; try done.
  intros Hnd. by eapply NoDup_lookup.
Qed.

Lemma all_ok_unfinished (s : @state scalar) :
  (∀ i t, tasks s !! i = Some t → ∃ d, t = Finished (Ok d)) → unfinished s = 0.
Proof.
  intros Hall. destruct (unfinished s) as [|n] eqn:Hn; [done|]. exfalso.
  destruct (count_pos_lookup (λ t, is_finished t = false) (tasks s))
    as (i & t & Hi & Hf); [unfold unfinished in Hn; lia|].
  destruct (Hall i t Hi) as [d ->]. done.
Qed.

(** Once every task has returned, [main] is resumed once for each queued
    future and then returns. *)
Lemma drain (n : nat) (s : @state scalar) :
  inv documents max_workers h0 endpoint s → length (done s) = n →
  (∀ i t, tasks s !! i = Some t → ∃ d, t = Finished (Ok d)) →
  ∃ s', exec endpoint (replicate n Await) s = Some s' ∧
        main_st s' = Returned ∧ heap s' = heap s ∧ tasks s' = tasks s.
Proof.
  revert s. induction n as [|n IH]; intros s Hinv Hlen Hall.
  - destruct (inv_queue _ _ _ _ _ Hinv) as [_ Hq].
    pose proof (all_ok_unfinished s Hall) as Hu.
    destruct (main_st s) as [k| |e] eqn:Hm.
    + destruct Hq as (? & ? & _). lia.
    + by exists s.
    + destruct Hq as [i Hi]. by destruct (Hall i _ Hi).
  - destruct (inv_queue _ _ _ _ _ Hinv) as [Hfin Hq].
    pose proof (all_ok_unfinished s Hall) as Hu.
    destruct (done s) as [|i q] eqn:Hd; [done|]. simpl in Hlen.
    destruct (Hfin i) as [r Hi]; [by left|].
    destruct (Hall i _ Hi) as [d Hr]. simplify_eq.
    destruct (main_st s) as [k| |e] eqn:Hm.
    + destruct Hq as (Hk & Hkq & _). simpl in Hkq.
      destruct k as [|k]; [lia|].
      assert (step endpoint Await s = Some (set_main q (loop k) s)) as Hstep.
      { simpl. by rewrite Hm, Hd, Hi. }
      destruct (IH (set_main q (loop k) s)) as (s' & Hs' & Hr' & Hh' & Ht').
      * by eapply inv_step.
      * simpl. lia.
      * done.
      * exists s'. simpl. simpl in Hstep. rewrite Hstep. done.
    + by destruct Hq as (_ & ? & _).
    + destruct Hq as [j Hj]. by destruct (Hall j _ Hj).
Qed.

(** ** Every run can be completed *)

Lemma progress (s : @state scalar) :
  inv documents max_workers h0 endpoint s → 0 < max_workers → 0 < unfinished s →
  ∃ a s' i t t',
    step endpoint a s = Some s' ∧ tasks s !! i = Some t ∧
    tasks s' = <[i:=t']> (tasks s) ∧ task_fuel t' < task_fuel t.
Proof.
  intros Hinv HK Hu. pose proof (inv_slots _ _ _ _ _ Hinv) as Hsl.
  assert (∀ j d p k, tasks s !! j = Some (InFlight d p k) →
            ∃ a s' i t t',
              step endpoint a s = Some s' ∧ tasks s !! i = Some t ∧
              tasks s' = <[i:=t']> (tasks s) ∧ task_fuel t' < task_fuel t) as Hreply.
  { intros j d p k Hj.
    destruct (tasks_finish j (k (endpoint j p) (heap s)).2
                (set_heap (k (endpoint j p) (heap s)).1 s)) as [r Hr].
    exists (Reply j). eexists. exists j, (InFlight d p k), (Finished r).
    split_and!; [simpl; by rewrite Hj|done|done|simpl; lia]. }
  destruct (decide (0 < sem_value s)) as [Hv|Hv].
  - destruct (count_pos_lookup (λ t, is_finished t = false) (tasks s) Hu)
      as (i & t & Hi & Hf).
    destruct t as [d|d|d p k|r]; [| |by eapply Hreply|done].
    + destruct (tasks_enter i d s) as (t' & Ht' & Hfuel).
      exists (Sched i), (enter i d s), i, (Pending d), t'.
      split_and!; [simpl; rewrite Hi; by case_decide|done|done|simpl; lia].
    + destruct (tasks_enter i d s) as (t' & Ht' & Hfuel).
      exists (Sched i), (enter i d s), i, (Waiting d), t'.
      split_and!; [simpl; rewrite Hi; by case_decide|done|done|simpl; lia].
  - destruct (count_pos_lookup (λ t, is_in_flight t = true) (tasks s))
      as (j & t & Hj & Hf); [unfold outstanding in Hsl; lia|].
    destruct t as [d|d|d p k|r]; try done. by eapply Hreply.
Qed.

Lemma can_complete (n : nat) (s : @state scalar) :
  fuel s ≤ n → inv documents max_workers h0 endpoint s → 0 < max_workers →
  ∃ ls s', exec endpoint ls s = Some s' ∧ unfinished s' = 0.
Proof.
  revert s. induction n as [|n IH]; intros s Hn Hinv HK.
  - destruct (unfinished s) as [|u] eqn:Hu; [by exists [], s|].
    destruct (progress s Hinv HK) as (a & s1 & i & t & t' & _ & Hi & _ & Hlt); [lia|].
    pose proof (sum_insert task_fuel (tasks s) i t t' Hi). unfold fuel in Hn. lia.
  - destruct (unfinished s) as [|u] eqn:Hu; [by exists [], s|].
    destruct (progress s Hinv HK) as (a & s1 & i & t & t' & Ha & Hi & Ht & Hlt); [lia|].
    destruct (IH s1) as (ls & s' & Hs' & Hu'); [| by eapply inv_step |done|].
    + pose proof (sum_insert task_fuel (tasks s) i t t' Hi) as Hsum.
      unfold fuel in *. rewrite Ht. lia.
    + exists (a :: ls), s'. simpl. rewrite Ha. done.
Qed.

Lemma exec_app (ls1 ls2 : list label) (s s1 s2 : @state scalar) :
  exec endpoint ls1 s = Some s1 → exec endpoint ls2 s1 = Some s2 →
  exec endpoint (ls1 ++ ls2) s = Some s2.
Proof.
  revert s. induction ls1 as [|a ls1 IH]; intros s H1 H2; simpl in *.
  - by simplify_eq.
  - destruct (step endpoint a s) as [s'|]; [|done]. by eapply IH.
Qed.

(** With a positive limit, records that all have a ['content'] and an
    endpoint from whose replies an item is always obtained, every run can be
    continued until [main] has returned. *)
Lemma run_can_return (s : @state scalar) :
  inv documents max_workers h0 endpoint s → 0 < max_workers →
  (∀ i d, documents !! i = Some d → is_Some (h0 d !! "content")) →
  (∀ i p, failure_of (endpoint i p) = None) →
  ∃ ls s', exec endpoint ls s = Some s' ∧ main_st s' = Returned.
Proof.
  intros Hinv HK Hcontent Hreply.
  destruct (can_complete (fuel s) s (le_n _) Hinv HK) as (ls1 & s1 & Hs1 & Hu).
  pose proof (inv_exec _ _ _ _ _ _ _ Hinv Hs1) as Hinv1.
  assert (∀ i t, tasks s1 !! i = Some t → ∃ d, t = Finished (Ok d)) as Hall.
  { intros i t Hi.
    pose proof (count_zero_lookup (λ t, is_finished t = false) _ i t Hu Hi) as Hf.
    pose proof (inv_tasks _ _ _ _ _ Hinv1 i t Hi) as Hok.
    destruct t as [d|d|d p k|[d|[key|e| | |[]]]]; simpl in Hf, Hok; try done.
    - by exists d.
    - destruct Hok as (_ & _ & d & Hd & Hc).
      destruct (Hcontent i d Hd) as [c Hc']. congruence.
    - destruct Hok as (_ & d & p & _ & _ & He). by rewrite Hreply in He.
    - destruct Hok as (_ & d & p & _ & _ & He). by rewrite Hreply in He.
    - destruct Hok as (_ & d & p & _ & _ & He). by rewrite Hreply in He.
    - destruct Hok as (_ & d & p & _ & _ & He). by rewrite Hreply in He. }
  destruct (drain (length (done s1)) s1 Hinv1 eq_refl Hall)
    as (s' & Hs' & Hret & _).
  exists (ls1 ++ replicate (length (done s1)) Await), s'.
  split; [by eapply exec_app|done].
Qed.

(** C3. Once every request has completed successfully, [main] returns
    after being resumed for the futures still queued; the list of records is
    the one submitted, every task has returned its own document, and every
    record carries under ['embedding'] the first item of the list the
    endpoint returned for that record's ['content'], which for a list of
    vectors is the first vector, its other fields being those submitted.
    The request is the one of the record's own position when the records
    are distinct objects. *)
Theorem main_returns_annotated_records (ls : list label) (s : @state scalar) :
  exec endpoint ls start = Some s →
  (∀ i t, tasks s !! i = Some t → ∃ d, t = Finished (Ok d)) →
  ∃ s', exec endpoint (replicate (length (done s)) Await) s = Some s' ∧
        main_st s' = Returned ∧
        ∀ i d, documents !! i = Some d →
          tasks s' !! i = Some (Finished (Ok d)) ∧
          ∃ j c first rest,
            documents !! j = Some d ∧ (NoDup documents → j = i) ∧
            h0 d !! "content" = Some c ∧
            endpoint j {| inputs := c; truncate := true |}
              = Returns (Some (JList (first :: rest))) ∧
            heap s' d = <["embedding" := VNumpy first]> (h0 d) ∧
            ∀ v vs,
              endpoint j {| inputs := c; truncate := true |}
                = Returns (Some (vectors (v :: vs))) →
              heap s' d = <["embedding" := VNumpy (vector v)]> (h0 d).
Proof.
  intros Hs Hall. pose proof (inv_run _ _ _ _ _ _ Hs) as Hinv.
  destruct (drain (length (done s)) s Hinv eq_refl Hall)
    as (s' & Hs' & Hret & Hh & Ht).
  exists s'. split_and!; [done..|]. intros i d Hd.
  pose proof (inv_exec _ _ _ _ _ _ _ Hinv Hs') as Hinv'.
  pose proof (returned_all_ok s' i d Hinv' Hret Hd) as Hi.
  split; [done|].
  destruct (annotated s' i d Hinv' Hi)
    as (j & c & first & rest & ? & ? & ? & ? & He & ? & Hheap).
  exists j, c, first, rest. split_and!; try done.
  intros v vs Hv. rewrite He in Hv. unfold vectors in Hv. simpl in Hv.
  by simplify_eq.
Qed.

(** C4. Whatever the order in which the replies arrive, a record is either
    as it was submitted or carries the first item of the reply to a request
    that a task of this very record sent with this record's ['content']; the
    record of a task that returned is in the second case; and the reply to
    the request of a task changes no record but the one of that task. *)
Theorem record_paired_with_own_response (ls : list label) (s : @state scalar) :
  exec endpoint ls start = Some s →
  (∀ l, heap s l = h0 l ∨
        ∃ j c first rest,
          documents !! j = Some l ∧ tasks s !! j = Some (Finished (Ok l)) ∧
          h0 l !! "content" = Some c ∧
          (j, {| inputs := c; truncate := true |}) ∈ sent s ∧
          endpoint j {| inputs := c; truncate := true |}
            = Returns (Some (JList (first :: rest))) ∧
          heap s l = <["embedding" := VNumpy first]> (h0 l)) ∧
  (∀ i d, tasks s !! i = Some (Finished (Ok d)) →
     documents !! i = Some d ∧
     ∃ j c first rest,
       documents !! j = Some d ∧ (NoDup documents → j = i) ∧
       h0 d !! "content" = Some c ∧
       endpoint j {| inputs := c; truncate := true |}
         = Returns (Some (JList (first :: rest))) ∧
       heap s d = <["embedding" := VNumpy first]> (h0 d)) ∧
  (∀ i d p k s', tasks s !! i = Some (InFlight d p k) →
     step endpoint (Reply i) s = Some s' →
     documents !! i = Some d ∧ ∀ l, l ≠ d → heap s' l = heap s l).
Proof.
  intros Hs. pose proof (inv_run _ _ _ _ _ _ Hs) as Hinv. split_and!.
  - intros l.
    destruct (inv_heap _ _ _ _ _ Hinv l)
      as [[Hl _]|(j & c & first & Hj & Hf & Hc & He & Hh)]; [by left|].
    destruct (proj1 (first_item_inr _ _) He) as (rest & sh & Hr & _).
    right. exists j, c, first, rest. split_and!; try done.
    by eapply finished_ok_sent.
  - intros i d Hi.
    destruct (inv_tasks _ _ _ _ _ Hinv i _ Hi) as (Hd & _). split; [done|].
    destruct (annotated s i d Hinv Hi)
      as (j & c & first & rest & ? & ? & ? & ? & ? & ? & ?).
    by exists j, c, first, rest.
  - intros i d p k s' Hi Hstep.
    destruct (inv_tasks _ _ _ _ _ Hinv i _ Hi) as (Hd & _ & -> & _).
    split; [done|]. intros l Hl. simpl in Hstep. rewrite Hi in Hstep.
    simplify_eq. unfold finish, release, request_resume.
    destruct (first_item (endpoint i p)) as [e|first]; case_decide; simpl;
      try done.
    all: by rewrite fn_lookup_insert_ne.
Qed.

(** C6, as the code has it. Attempts go by position of the job set: in
    every state of a run at most one request has been sent for each
    position, and exactly one once the task of a record that has a
    ['content'] is done; when the records are distinct objects a record has
    at most one request in flight; and with a positive limit every run can
    be continued until the task of every record is done. *)
Theorem one_attempt_per_record (ls : list label) (s : @state scalar) :
  exec endpoint ls start = Some s →
  (∀ i, attempts i s ≤ 1) ∧
  (∀ i d r, documents !! i = Some d → is_Some (h0 d !! "content") →
     tasks s !! i = Some (Finished r) → attempts i s = 1) ∧
  (NoDup documents →
     ∀ i j d p k p' k',
       tasks s !! i = Some (InFlight d p k) →
       tasks s !! j = Some (InFlight d p' k') → i = j) ∧
  (0 < max_workers →
     ∃ ls' s', exec endpoint ls' s = Some s' ∧
               ∀ i d, documents !! i = Some d →
                      ∃ r, tasks s' !! i = Some (Finished r)).
Proof.
  intros Hs. pose proof (inv_run _ _ _ _ _ _ Hs) as Hinv. split_and!.
  - intros i. destruct (tasks s !! i) as [t|] eqn:Hi.
    + pose proof (inv_tasks _ _ _ _ _ Hinv i t Hi) as Hok.
      destruct t as [d|d|d p k|[d|[key|e| | |[]]]]; simpl in Hok; try done.
      all: first [ destruct Hok as (_ & _ & _ & ?); lia
                 | destruct Hok as (? & ? & ?); lia
                 | destruct Hok as (? & ?); lia ].
    + destruct (attempts i s) as [|n] eqn:Ha; [lia|]. exfalso.
      destruct (attempted_sent s i) as [p Hin]; [lia|].
      destruct (sent_run _ _ _ _ _ _ Hs i p Hin) as (d & Hd & _).
      apply lookup_ge_None in Hi. apply lookup_lt_Some in Hd.
      rewrite (inv_length _ _ _ _ _ Hinv) in Hi. lia.
  - intros i d r Hd [c Hc] Hi.
    pose proof (inv_tasks _ _ _ _ _ Hinv i _ Hi) as Hok.
    destruct r as [d'|[key|e| | |[]]]; simpl in Hok; try done.
    + by destruct Hok as (_ & ? & _).
    + destruct Hok as (_ & _ & d2 & Hd2 & Hc2). congruence.
    + by destruct Hok as (? & _).
    + by destruct Hok as (? & _).
    + by destruct Hok as (? & _).
    + by destruct Hok as (? & _).
  - intros Hnd i j d p k p' k' Hi Hj.
    destruct (inv_tasks _ _ _ _ _ Hinv i _ Hi) as (Hdi & _).
    destruct (inv_tasks _ _ _ _ _ Hinv j _ Hj) as (Hdj & _).
    by eapply NoDup_lookup.
  - intros HK.
    destruct (can_complete (fuel s) s (le_n _) Hinv HK) as (ls' & s' & Hs' & Hu).
    exists ls', s'. split; [done|]. intros i d Hd.
    eapply all_finished; [by eapply inv_exec|done..].
Qed.

(** C2, as the code has it. A request that fails makes its task raise: the
    reply leaves every record as it was, so that neither an embedding nor a
    marker of the error is written, and it leaves the other tasks and
    [main] as they were. The exception is raised again in [main] when it
    awaits the future of that task, which ends [main]; after a task has
    failed [main] never returns, and [main] ends with an exception only if a
    task raised it. *)
Theorem failed_request_raises_in_main (ls : list label) (s : @state scalar) :
  exec endpoint ls start = Some s →
  (∀ i d p k e, tasks s !! i = Some (InFlight d p k) →
     failure_of (endpoint i p) = Some e →
     ∃ s', step endpoint (Reply i) s = Some s' ∧ heap s' = heap s ∧
           tasks s' = <[i:=Finished (Err e)]> (tasks s) ∧
           main_st s' = main_st s) ∧
  (∀ i q n e, main_st s = Running n → done s = i :: q →
     tasks s !! i = Some (Finished (Err e)) →
     ∃ s', step endpoint Await s = Some s' ∧ main_st s' = Raised e) ∧
  (∀ i e, tasks s !! i = Some (Finished (Err e)) →
     ∀ ls' s', exec endpoint ls' s = Some s' → main_st s' ≠ Returned) ∧
  (∀ e, main_st s = Raised e → ∃ i, tasks s !! i = Some (Finished (Err e))).
Proof.
  intros Hs. pose proof (inv_run _ _ _ _ _ _ Hs) as Hinv. split_and!.
  - intros i d p k e Hi Hf.
    destruct (inv_tasks _ _ _ _ _ Hinv i _ Hi) as (_ & _ & -> & _).
    pose proof (in_flight_counted s i d p _ Hi) as Hpos.
    pose proof (inv_slots _ _ _ _ _ Hinv) as Hsl.
    pose proof (inv_bound _ _ _ _ _ Hinv) as Hb.
    eexists. split; [simpl; by rewrite Hi|].
    rewrite finish_released by (simpl; lia).
    unfold failure_of in Hf.
    destruct (first_item (endpoint i p)) as [e'|first] eqn:He; [|done].
    simplify_eq. by rewrite (request_resume_inl _ _ e).
  - intros i q n e Hm Hq Hi.
    destruct (inv_queue _ _ _ _ _ Hinv) as [_ Hmain]. rewrite Hm in Hmain.
    destruct Hmain as (Hn & _). destruct n as [|n]; [lia|].
    eexists. split; [simpl; by rewrite Hm, Hq, Hi|done].
  - intros i e Hi ls' s' Hs' Hret.
    pose proof (inv_exec _ _ _ _ _ _ _ Hinv Hs') as Hinv'.
    pose proof (finished_exec _ _ _ _ _ _ Hs' Hi) as Hi'.
    destruct (inv_queue _ _ _ _ _ Hinv') as [_ Hmain]. rewrite Hret in Hmain.
    destruct Hmain as (_ & _ & Hne). by apply Hne in Hi'.
  - intros e Hm. destruct (inv_queue _ _ _ _ _ Hinv) as [_ Hmain].
    by rewrite Hm in Hmain.
Qed.

(** C7, as the code has it. A request that meets a transient network error
    is not sent again: the reply ends the task with that error at once,
    nothing more is sent by that step, and in every continuation of the run
    the task stays failed with exactly one request sent for it, [main] does
    not return, and when [main] awaits the future of that task the
    exception is raised in [main]. *)
Theorem transient_error_not_retried (ls : list label) (s : @state scalar)
    (i : nat) (d : loc) (p : payload) k (e : post_error) :
  exec endpoint ls start = Some s →
  tasks s !! i = Some (InFlight d p k) →
  endpoint i p = Raises e →
  ∃ s', step endpoint (Reply i) s = Some s' ∧
        tasks s' !! i = Some (Finished (Err (ClientError e))) ∧
        sent s' = sent s ∧
        ∀ ls' s'', exec endpoint ls' s' = Some s'' →
          tasks s'' !! i = Some (Finished (Err (ClientError e))) ∧
          attempts i s'' = 1 ∧
          main_st s'' ≠ Returned ∧
          ∀ n q, main_st s'' = Running n → done s'' = i :: q →
            ∃ s3, step endpoint Await s'' = Some s3 ∧
                  main_st s3 = Raised (ClientError e).
Proof.
  intros Hs Hi He. pose proof (inv_run _ _ _ _ _ _ Hs) as Hinv.
  destruct (inv_tasks _ _ _ _ _ Hinv i _ Hi) as (_ & _ & -> & _).
  pose proof (in_flight_counted s i d p _ Hi) as Hpos.
  pose proof (inv_slots _ _ _ _ _ Hinv) as Hsl.
  pose proof (inv_bound _ _ _ _ _ Hinv) as Hb.
  assert (step endpoint (Reply i) s
          = Some (finish i (Err (ClientError e)) (set_heap (heap s) s))) as Hstep.
  { simpl. rewrite Hi, He. done. }
  eexists. split; [exact Hstep|].
  pose proof (inv_step _ _ _ _ _ _ _ Hinv Hstep) as Hinv'.
  rewrite finish_released in Hinv' |- * by (simpl; lia). simpl.
  assert (<[i:=Finished (Err (ClientError e))]> (tasks s) !! i
          = Some (Finished (Err (ClientError e)))) as Hfin.
  { apply list_lookup_insert_eq. by eapply lookup_lt_Some. }
  split_and!; [done|done|]. intros ls' s'' Hs''.
  pose proof (finished_exec _ _ _ _ _ _ Hs'' Hfin) as Hi''.
  pose proof (inv_exec _ _ _ _ _ _ _ Hinv' Hs'') as Hinv''.
  destruct (inv_queue _ _ _ _ _ Hinv'') as [_ Hmain].
  split_and!.
  - done.
  - by destruct (inv_tasks _ _ _ _ _ Hinv'' i _ Hi'') as (? & _).
  - intros Hret. rewrite Hret in Hmain. destruct Hmain as (_ & _ & Hne).
    by apply Hne in Hi''.
  - intros n q Hm Hq. rewrite Hm in Hmain. destruct Hmain as (Hn & _).
    destruct n as [|n]; [lia|].
    eexists. split; [simpl; by rewrite Hm, Hq, Hi''|done].
Qed.

End Claims.

(** * Two runs against a deterministic endpoint *)

(** C9. With an endpoint whose reply is a function of the payload alone,
    two runs of the client on the same records, under any two schedules,
    that end with [main] returned leave every record with the same fields,
    hence the same embedding. *)
Theorem pass_through_deterministic {scalar : Type} (documents : list loc)
    (max_workers : nat) (h0 : loc → gmap string (@value scalar))
    (reply : @payload scalar → @response scalar)
    (ls1 ls2 : list label) (s1 s2 : @state scalar) :
  exec (λ _, reply) ls1 (main documents max_workers h0) = Some s1 →
  exec (λ _, reply) ls2 (main documents max_workers h0) = Some s2 →
  main_st s1 = Returned → main_st s2 = Returned →
  ∀ l, heap s1 l = heap s2 l ∧
       heap s1 l !! "embedding" = heap s2 l !! "embedding".
Proof.
  intros Hs1 Hs2 Hr1 Hr2 l.
  pose proof (inv_run _ _ _ _ _ _ Hs1) as Hinv1.
  pose proof (inv_run _ _ _ _ _ _ Hs2) as Hinv2.
  assert (heap s1 l = heap s2 l) as Heq; [|by rewrite Heq].
  destruct (inv_heap _ _ _ _ _ Hinv1 l)
    as [[Hl1 Hn1]|(j1 & c1 & v1 & Hj1 & Hf1 & Hc1 & He1 & Hh1)];
  destruct (inv_heap _ _ _ _ _ Hinv2 l)
    as [[Hl2 Hn2]|(j2 & c2 & v2 & Hj2 & Hf2 & Hc2 & He2 & Hh2)].
  - congruence.
  - exfalso. eapply (Hn1 j2). by eapply (returned_all_ok _ _ _ _ s1).
  - exfalso. eapply (Hn2 j1). by eapply (returned_all_ok _ _ _ _ s2).
  - rewrite Hh1, Hh2. simplify_eq. congruence.
Qed.


(** * The model run on small job sets *)

Lemma exec_run_to {scalar : Type} (endpoint : nat → @payload scalar → response)
    (ls : list label) (s : state) :
  can_run endpoint ls s = true → exec endpoint ls s = Some (run_to endpoint ls s).
Proof. unfold can_run, run_to. by destruct (exec endpoint ls s). Defined.

Ltac by_running := vm_compute; reflexivity.

Ltac run_schedule H :=
  lazymatch goal with
  | |- ∃ s, exec ?ep ?ls ?s0 = Some s ∧ _ =>
      assert (exec ep ls s0 = Some (run_to ep ls s0)) as H
        by (apply exec_run_to; by_running);
      exists (run_to ep ls s0); split; [exact H|]
  end.

(** Seven records and five slots: five requests in flight, two tasks wait. *)
Lemma outstanding_requests_bounded_witness :
  ∃ s, exec demo_endpoint (Sched <$> seq 0 7)
         (main (seq 0 7) MAX_WORKERS demo_store) = Some s ∧
       outstanding s = 5 ∧
       outstanding s ≤ MAX_WORKERS ∧
       outstanding s + sem_value s = MAX_WORKERS.
Proof.
  run_schedule Hs. split; [by_running|].
  destruct (outstanding_requests_bounded _ _ _ _ _ _ Hs) as (Hle & Hslots & _).
  split; [exact Hle | exact Hslots].
Defined.

Lemma main_returns_annotated_records_witness :
  ∃ s, exec demo_endpoint ((Sched <$> seq 0 3) ++ (Reply <$> [2; 0; 1]))
         (main [0; 1; 2] MAX_WORKERS demo_store) = Some s ∧
       (∀ i t, tasks s !! i = Some t → ∃ d, t = Finished (Ok d)) ∧
       ∃ s', exec demo_endpoint (replicate (length (done s)) Await) s = Some s' ∧
             main_st s' = Returned ∧
             tasks s' !! 1 = Some (Finished (Ok 1)).
Proof.
  run_schedule Hs.
  match type of Hs with _ = Some ?s =>
    assert (tasks s = [Finished (Ok 0); Finished (Ok 1); Finished (Ok 2)])
      as Htasks by by_running;
    assert (∀ i t, tasks s !! i = Some t → ∃ d, t = Finished (Ok d)) as Hall
  end.
  { rewrite Htasks. clear Hs Htasks.
    intros [|[|[|i]]] t Hi; inversion Hi; eauto. }
  split; [exact Hall|].
  destruct (main_returns_annotated_records _ _ _ _ _ _ Hs Hall)
    as (s' & Hs' & Hret & Hrec).
  exists s'. split; [exact Hs'|]. split; [exact Hret|].
  exact (proj1 (Hrec 1 1 eq_refl)).
Defined.

Lemma record_paired_with_own_response_witness :
  ∃ s, exec demo_endpoint ((Sched <$> seq 0 3) ++ (Reply <$> [2; 0]))
         (main [0; 1; 2] MAX_WORKERS demo_store) = Some s ∧
       heap s 2 !! "embedding" = Some (VNumpy (vector [2%Z; 1%Z])) ∧
       heap s 1 !! "embedding" = None ∧
       ∀ l, heap s l = demo_store l ∨
            ∃ j c first rest,
              [0; 1; 2] !! j = Some l ∧ tasks s !! j = Some (Finished (Ok l)) ∧
              demo_store l !! "content" = Some c ∧
              (j, {| inputs := c; truncate := true |}) ∈ sent s ∧
              demo_endpoint j {| inputs := c; truncate := true |}
                = Returns (Some (JList (first :: rest))) ∧
              heap s l = <["embedding" := VNumpy first]> (demo_store l).
Proof.
  run_schedule Hs. split; [by_running|]. split; [by_running|].
  exact (proj1 (record_paired_with_own_response _ _ _ _ _ _ Hs)).
Defined.

Lemma other_fields_unchanged_witness :
  ∃ s, exec demo_endpoint (eager_schedule 3)
         (main [0; 1; 2] MAX_WORKERS demo_store) = Some s ∧
       heap s 1 !! "title" = Some (VStr "post") ∧
       ∀ l key, key ≠ "embedding" → heap s l !! key = demo_store l !! key.
Proof.
  run_schedule Hs. split; [by_running|].
  exact (proj1 (other_fields_unchanged _ _ _ _ _ _ Hs)).
Defined.

Lemma one_attempt_per_record_witness :
  ∃ s, exec demo_endpoint (eager_schedule 3)
         (main [0; 1; 2] MAX_WORKERS demo_store) = Some s ∧
       attempts 0 s = 1 ∧ attempts 1 s = 1 ∧ attempts 2 s = 1 ∧
       ∀ i, attempts i s ≤ 1.
Proof.
  run_schedule Hs. split_and!; [by_running..|].
  exact (proj1 (one_attempt_per_record _ _ _ _ _ _ Hs)).
Defined.

Lemma payload_carries_full_content_witness :
  ∃ s, exec demo_endpoint (Sched <$> seq 0 3)
         (main [0; 1; 2] MAX_WORKERS demo_store) = Some s ∧
       sent s = [(0, {| inputs := VStr "text"; truncate := true |});
                 (1, {| inputs := VStr "abtext"; truncate := true |});
                 (2, {| inputs := VStr "ababtext"; truncate := true |})] ∧
       ∀ i p, (i, p) ∈ sent s →
         ∃ d c, [0; 1; 2] !! i = Some d ∧ demo_store d !! "content" = Some c ∧
                inputs p = c ∧ truncate p = true.
Proof.
  run_schedule Hs. split; [by_running|].
  exact (proj1 (payload_carries_full_content _ _ _ _ _ _ Hs)).
Defined.


(** Two orders of completion against the endpoint keyed by the text. *)
Lemma pass_through_deterministic_witness :
  ∃ s1 s2,
    exec (λ _, text_endpoint) (eager_schedule 3)
      (main [0; 1; 2] MAX_WORKERS demo_store) = Some s1 ∧
    exec (λ _, text_endpoint)
      [Sched 2; Sched 1; Reply 1; Sched 0; Reply 2; Await; Reply 0; Await; Await]
      (main [0; 1; 2] MAX_WORKERS demo_store) = Some s2 ∧
    main_st s1 = Returned ∧ main_st s2 = Returned ∧
    heap s1 2 !! "embedding" = Some (VNumpy (vector [8%Z; 2%Z])) ∧
    ∀ l, heap s1 l = heap s2 l ∧
         heap s1 l !! "embedding" = heap s2 l !! "embedding".
Proof.
  set (s0 := main [0; 1; 2] MAX_WORKERS demo_store).
  set (ls2 := [Sched 2; Sched 1; Reply 1; Sched 0; Reply 2; Await; Reply 0;
               Await; Await]).
  assert (exec (λ _, text_endpoint) (eager_schedule 3) s0
          = Some (run_to (λ _, text_endpoint) (eager_schedule 3) s0)) as Hs1
    by (apply exec_run_to; by_running).
  assert (exec (λ _, text_endpoint) ls2 s0
          = Some (run_to (λ _, text_endpoint) ls2 s0)) as Hs2
    by (apply exec_run_to; by_running).
  assert (main_st (run_to (λ _, text_endpoint) (eager_schedule 3) s0) = Returned)
    as Hr1 by by_running.
  assert (main_st (run_to (λ _, text_endpoint) ls2 s0) = Returned)
    as Hr2 by by_running.
  exists (run_to (λ _, text_endpoint) (eager_schedule 3) s0),
         (run_to (λ _, text_endpoint) ls2 s0).
  split; [exact Hs1|]. split; [exact Hs2|].
  split; [exact Hr1|]. split; [exact Hr2|]. split; [by_running|].
  exact (pass_through_deterministic _ _ _ _ _ _ _ _ Hs1 Hs2 Hr1 Hr2).
Defined.

Lemma failed_request_raises_in_main_witness :
  ∃ s, exec every_fifth_fails (Sched <$> seq 0 5)
         (main (seq 0 5) MAX_WORKERS demo_store) = Some s ∧
       ∃ s', step every_fifth_fails (Reply 4) s = Some s' ∧ heap s' = heap s ∧
             tasks s' = <[4:=Finished (Err (ClientError (BadStatus 500)))]> (tasks s) ∧
             main_st s' = main_st s.
Proof.
  run_schedule Hs.
  destruct (failed_request_raises_in_main _ _ _ _ _ _ Hs) as (Hfail & _).
  apply (Hfail 4 4 {| inputs := VStr "ababababtext"; truncate := true |}
           (request_resume 4)); reflexivity.
Defined.

(** One hundred records, five slots, every fifth request rejected: [main]
    is ended by the exception of the first failed task it awaits; with the
    loop left running, eighty tasks return and twenty raise; the record of a
    failed task has its three fields and no more, while a record that was
    embedded has four. *)
Lemma failure_aborts_main :
  option_map
    (λ s, (summary s, heap s 4 !! "embedding", size (heap s 4), size (heap s 3)))
    (exec every_fifth_fails (wave_schedule 100 20 5)
       (main (seq 0 100) MAX_WORKERS demo_store))
  = Some (Raised (ClientError (BadStatus 500)), 80, 20, 100, None, 3, 4).
Proof. by_running. Qed.

Lemma transient_error_not_retried_witness :
  ∃ s, exec timeout_endpoint [Sched 0] (main [0] MAX_WORKERS demo_store) = Some s ∧
       tasks s !! 0
         = Some (InFlight 0 {| inputs := VStr "text"; truncate := true |}
                   (request_resume 0)) ∧
       timeout_endpoint 0 {| inputs := VStr "text"; truncate := true |}
         = Raises Timeout ∧
       ∃ s', step timeout_endpoint (Reply 0) s = Some s' ∧
             tasks s' !! 0 = Some (Finished (Err (ClientError Timeout))) ∧
             sent s' = sent s.
Proof.
  run_schedule Hs. split; [reflexivity|]. split; [reflexivity|].
  destruct (transient_error_not_retried _ _ _ _ _ _ 0 0
              {| inputs := VStr "text"; truncate := true |} (request_resume 0)
              Timeout Hs eq_refl eq_refl) as (s' & Hstep & Hfin & Hsent & _).
  exists s'. split; [exact Hstep|]. split; [exact Hfin | exact Hsent].
Defined.

(** A request that times out: the run ends with one request sent, the task
    failed and [main] ended by the exception; no step is left to take. *)
Lemma timeout_request_sent_once :
  ∃ s, exec timeout_endpoint [Sched 0; Reply 0; Await]
         (main [0] MAX_WORKERS demo_store) = Some s ∧
       sent s = [(0, {| inputs := VStr "text"; truncate := true |})] ∧
       tasks s = [Finished (Err (ClientError Timeout))] ∧
       main_st s = Raised (ClientError Timeout) ∧
       ∀ a, step timeout_endpoint a s = None.
Proof.
  run_schedule Hs.
  match type of Hs with _ = Some ?s =>
    assert (tasks s = [Finished (Err (ClientError Timeout))]) as Htasks
      by by_running;
    assert (main_st s = Raised (ClientError Timeout)) as Hmain by by_running
  end.
  split_and!; [by_running|exact Htasks|exact Hmain|].
  intros [i|i|]; unfold step; rewrite ?Htasks, ?Hmain; [| |done].
  - by destruct i as [|i].
  - by destruct i as [|i].
Qed.

(** The same object submitted at two positions: two requests for that one
    record are in flight together, and two requests are sent for it. *)
Lemma aliased_record_two_requests :
  option_map (λ s, (in_flight_documents s, outstanding s, sent s))
    (exec demo_endpoint [Sched 0; Sched 1] (main [0; 0] MAX_WORKERS demo_store))
  = Some ([0; 0], 2,
          [(0, {| inputs := VStr "text"; truncate := true |});
           (1, {| inputs := VStr "text"; truncate := true |})]).
Proof. by_running. Qed.


(** What [request] obtains from replies of several shapes: vectors of
    different lengths, a list of two empty vectors, a JSON object, a number,
    an empty list. *)
Lemma replies_of_other_shapes :
  first_item (ragged_endpoint 0 {| inputs := VNone; truncate := true |})
    = inl (ValueError InhomogeneousShape) ∧
  first_item (Returns (Some (vectors [[]; []])) : @response Z)
    = inr (vector []) ∧
  first_item (object_endpoint 0 {| inputs := VNone; truncate := true |})
    = inl IndexError ∧
  first_item (Returns (Some (JNum 1%Z))) = inl IndexError ∧
  first_item (empty_endpoint 0 {| inputs := VNone; truncate := true |})
    = inl IndexError.
Proof. split_and!; by_running. Qed.

(** Vectors of different lengths: [np.array] raises, the task ends with
    [ValueError], the record gets no embedding and [main] is ended by the
    exception. *)
Lemma ragged_reply_raises_value_error :
  option_map (λ s, (tasks s, heap s 0 !! "embedding", main_st s, sem_value s))
    (exec ragged_endpoint [Sched 0; Reply 0; Await]
       (main [0] MAX_WORKERS demo_store))
  = Some ([Finished (Err (ValueError InhomogeneousShape))], None,
          Raised (ValueError InhomogeneousShape), MAX_WORKERS).
Proof. by_running. Qed.

(** * Length of a run, deadlock and edge cases *)

Section Runs.

Context {scalar : Type}.
Variable documents : list loc.
Variable max_workers : nat.
Variable h0 : loc → gmap string (@value scalar).
Variable endpoint : nat → @payload scalar → @response scalar.

Local Abbreviation start := (main documents max_workers h0).

Lemma main_st_finish (i : nat) (r : result) (s : @state scalar) :
  main_st (finish i r s) = main_st s ∧ heap (finish i r s) = heap s ∧
  sent (finish i r s) = sent s ∧ done (finish i r s) = done s ++ [i].
Proof. unfold finish, release. by case_decide. Qed.

Lemma main_st_enter (i : nat) (d : loc) (s : @state scalar) :
  main_st (enter i d s) = main_st s ∧ heap (enter i d s) = heap s.
Proof.
  unfold enter, request. simpl. destruct (heap s d !! "content"); [done|].
  by destruct (main_st_finish i (Err (KeyError "content"))
                 (set_sem (pred (sem_value s)) s)) as (-> & -> & _).
Qed.

(** A step of a task leaves [main] where it is; a step of [main] leaves the
    tasks as they are and awaits one future. *)
Lemma step_main (a : label) (s s' : @state scalar) :
  step endpoint a s = Some s' →
  (is_await a = false ∧ main_st s' = main_st s) ∨
  (is_await a = true ∧ tasks s' = tasks s ∧
   ∃ n, main_st s = Running (S n) ∧
        (main_st s' = loop n ∨ ∃ e, main_st s' = Raised e)).
Proof.
  intros Hs.
  destruct (step_cases _ a s s' Hs)
    as [(j & d & -> & Hj & Hv & ->)
       |[(j & d & t & -> & Hj & Ht & Hv & ->)
       |[(j & d & p & k & -> & Hj & ->)
       |[(j & q & n & d & -> & Hm & Hq & Hj & ->)
        |(j & q & n & e & -> & Hm & Hq & Hj & ->)]]]].
  - by left.
  - left. split; [done|]. apply main_st_enter.
  - left. split; [done|].
    by destruct (main_st_finish j (k (endpoint j p) (heap s)).2
                   (set_heap (k (endpoint j p) (heap s)).1 s)) as (-> & _).
  - right. split_and!; [done..|]. exists n. eauto.
  - right. split_and!; [done..|]. exists n. eauto.
Qed.

Lemma remaining_loop (n : nat) : remaining (loop n) = n.
Proof. by destruct n. Qed.

Lemma fuel_pending (ds : list loc) :
  sum_list (task_fuel <$> (@Pending scalar <$> ds)) = 3 * length ds.
Proof.
  induction ds as [|d ds IH]; [done|].
  rewrite !fmap_cons. change (sum_list (task_fuel (@Pending scalar d) ::
    (task_fuel <$> (Pending <$> ds)))) with
    (3 + sum_list (task_fuel <$> (@Pending scalar <$> ds))).
  rewrite IH. simpl length. lia.
Qed.

(** Every step uses up some of the budget of the state. *)
Lemma step_budget (a : label) (s s' : @state scalar) :
  step endpoint a s = Some s' → budget s' < budget s.
Proof.
  intros Hs. unfold budget, fuel.
  destruct (step_cases _ a s s' Hs)
    as [(j & d & -> & Hj & Hv & ->)
       |[(j & d & t & -> & Hj & Ht & Hv & ->)
       |[(j & d & p & k & -> & Hj & ->)
       |[(j & q & n & d & -> & Hm & Hq & Hj & ->)
        |(j & q & n & e & -> & Hm & Hq & Hj & ->)]]]].
  - simpl. pose proof (sum_insert task_fuel (tasks s) j _ (Waiting d) Hj) as H.
    simpl in H. lia.
  - destruct (tasks_enter j d s) as (t' & -> & Hfuel).
    destruct (main_st_enter j d s) as (-> & _).
    pose proof (sum_insert task_fuel (tasks s) j _ t' Hj) as H.
    destruct Ht as [-> | ->]; simpl in H; lia.
  - destruct (tasks_finish j (k (endpoint j p) (heap s)).2
                (set_heap (k (endpoint j p) (heap s)).1 s)) as (r & ->).
    destruct (main_st_finish j (k (endpoint j p) (heap s)).2
                (set_heap (k (endpoint j p) (heap s)).1 s)) as (-> & _).
    pose proof (sum_insert task_fuel (tasks s) j _ (Finished r) Hj) as H.
    simpl in *. lia.
  - simpl. rewrite Hm, remaining_loop. simpl. lia.
  - simpl. rewrite Hm. simpl. lia.
Qed.

Lemma exec_budget (ls : list label) (s s' : @state scalar) :
  exec endpoint ls s = Some s' → length ls + budget s' ≤ budget s.
Proof.
  revert s. induction ls as [|a ls IH]; intros s Hs; simpl in Hs.
  - simplify_eq. simpl. lia.
  - destruct (step endpoint a s) as [s1|] eqn:Ha; [|done].
    pose proof (step_budget a s s1 Ha). specialize (IH s1 Hs). simpl. lia.
Qed.

(** X1. No run goes on for ever: a schedule that can be run has at most
    four steps for each document, three for its task (wait, send, reply)
    and one for the await of [main]. *)
Theorem run_length_bounded (ls : list label) (s : @state scalar) :
  exec endpoint ls start = Some s →
  length ls + budget s ≤ 4 * length documents ∧
  length ls ≤ 4 * length documents.
Proof.
  intros Hs. pose proof (exec_budget ls _ s Hs) as Hb.
  unfold budget at 2, fuel in Hb. simpl in Hb.
  rewrite fuel_pending, remaining_loop in Hb. lia.
Qed.

(** X2. With a positive limit the client cannot get stuck: as long as a
    task is not done or [main] has not ended, some step can be taken. *)
Theorem no_deadlock (ls : list label) (s : @state scalar) :
  exec endpoint ls start = Some s → 0 < max_workers →
  (0 < unfinished s ∨ ∃ n, main_st s = Running n) →
  ∃ a s', step endpoint a s = Some s'.
Proof.
  intros Hs HK Hlive. pose proof (inv_run _ _ _ _ _ _ Hs) as Hinv.
  destruct (decide (0 < unfinished s)) as [Hu|Hu].
  - destruct (progress _ _ _ _ s Hinv HK Hu) as (a & s' & _ & _ & _ & Ha & _).
    eauto.
  - destruct Hlive as [?|[n Hm]]; [lia|].
    destruct (inv_queue _ _ _ _ _ Hinv) as [Hfin Hq]. rewrite Hm in Hq.
    destruct Hq as (Hn & Hnq & _).
    destruct (done s) as [|i q] eqn:Hd; [simpl in Hnq; lia|].
    destruct (Hfin i) as [r Hi]; [by left|].
    destruct n as [|n]; [lia|]. exists Await. simpl. rewrite Hm, Hd, Hi.
    destruct r; eauto.
Qed.

(** X3. When [main] has returned nothing is left over: no request is in
    flight, every slot of the semaphore is free, no future is queued and no
    step can be taken. *)
Theorem returned_is_quiescent (ls : list label) (s : @state scalar) :
  exec endpoint ls start = Some s → main_st s = Returned →
  outstanding s = 0 ∧ sem_value s = max_workers ∧ done s = [] ∧
  ∀ a, step endpoint a s = None.
Proof.
  intros Hs Hret. pose proof (inv_run _ _ _ _ _ _ Hs) as Hinv.
  destruct (inv_queue _ _ _ _ _ Hinv) as [_ Hq]. rewrite Hret in Hq.
  destruct Hq as (Hu & Hd & _).
  assert (∀ i t, tasks s !! i = Some t → ∃ r, t = Finished r) as Hall.
  { intros i t Hi.
    pose proof (count_zero_lookup (λ t, is_finished t = false) _ i t Hu Hi) as Hf.
    destruct t; simpl in Hf; try done. eauto. }
  assert (outstanding s = 0) as Ho.
  { destruct (outstanding s) as [|n] eqn:Hn; [done|]. exfalso.
    destruct (count_pos_lookup (λ t, is_in_flight t = true) (tasks s))
      as (i & t & Hi & Hf); [unfold outstanding in Hn; lia|].
    destruct (Hall i t Hi) as [r ->]. done. }
  pose proof (inv_slots _ _ _ _ _ Hinv) as Hsl.
  split_and!; [done|lia|done|].
  intros [i|i|]; simpl.
  - destruct (tasks s !! i) as [t|] eqn:Hi; [|done].
    by destruct (Hall i t Hi) as [r ->].
  - destruct (tasks s !! i) as [t|] eqn:Hi; [|done].
    by destruct (Hall i t Hi) as [r ->].
  - by rewrite Hret.
Qed.


(** X5. An empty job set: [main] returns at once and the only schedule that
    can be run is the empty one, so nothing is sent. *)
Theorem empty_job_set_returns (ls : list label) (s : @state scalar) :
  exec endpoint ls (main [] max_workers h0) = Some s →
  ls = [] ∧ main_st s = Returned ∧ sent s = [] ∧ heap s = h0.
Proof.
  destruct ls as [|a ls]; simpl.
  - intros ?. by simplify_eq.
  - destruct a as [i|i|]; simpl; done.
Qed.

End Runs.

(** * Requests sent, awaits of [main] and missing fields *)

Section Requests.

Context {scalar : Type}.
Variable documents : list loc.
Variable max_workers : nat.
Variable h0 : loc → gmap string (@value scalar).
Variable endpoint : nat → @payload scalar → @response scalar.

Local Abbreviation start := (main documents max_workers h0).
Local Abbreviation posted := (λ t : @task scalar, has_posted t = true).

Lemma filter_all {A : Type} (P : A → Prop) `{!∀ x, Decision (P x)} (l : list A) :
  (∀ i x, l !! i = Some x → P x) → length (filter P l) = length l.
Proof.
  induction l as [|x l IH]; intros Hall; [done|].
  rewrite filter_cons. destruct (decide (P x)) as [|Hx].
  - simpl. rewrite IH; [done|]. intros i y Hi. by apply (Hall (S i)).
  - destruct Hx. by apply (Hall 0).
Qed.

Lemma pending_not_posted (ds : list loc) :
  filter posted (Pending <$> ds) = [].
Proof.
  induction ds as [|d ds IH]; [done|]. rewrite fmap_cons, filter_cons.
  case_decide; [done|]. exact IH.
Qed.

Lemma posted_resume (d : loc) (r : @response scalar)
    (h : loc → gmap string (@value scalar)) :
  has_posted (@Finished scalar (request_resume d r h).2) = true.
Proof.
  unfold request_resume. destruct (first_item r) as [e|first] eqn:He; [|done].
  by destruct (first_item_inl _ _ He) as [[pe ->]|[->|[->| ->]]].
Qed.

(** The log of the endpoint has one entry for each task that got as far as
    its post. *)
Lemma sent_count_step (a : label) (s s' : @state scalar) :
  inv documents max_workers h0 endpoint s → step endpoint a s = Some s' →
  length (sent s) = length (filter posted (tasks s)) →
  length (sent s') = length (filter posted (tasks s')).
Proof.
  intros Hinv Hs Hlen.
  pose proof (inv_slots _ _ _ _ _ Hinv) as Hsl.
  pose proof (inv_bound _ _ _ _ _ Hinv) as Hb.
  destruct (step_cases _ a s s' Hs)
    as [(j & d & -> & Hj & Hv & ->)
       |[(j & d & t & -> & Hj & Ht & Hv & ->)
       |[(j & d & p & k & -> & Hj & ->)
       |[(j & q & n & d & -> & Hm & Hq & Hj & ->)
        |(j & q & n & e & -> & Hm & Hq & Hj & ->)]]]]; try done.
  - simpl. pose proof (count_insert posted _ _ _ (Waiting d) Hj) as Hc.
    unfold weight in Hc. simpl in Hc. lia.
  - assert (weight posted t = 0) as Hw by by destruct Ht as [-> | ->].
    unfold enter, request. simpl.
    destruct (heap s d !! "content") as [c|].
    + simpl. rewrite length_app. simpl.
      pose proof (count_insert posted _ _ _
                    (InFlight d {| inputs := c; truncate := true |}
                       (request_resume d)) Hj) as Hc.
      unfold weight at 2 in Hc. simpl in Hc. lia.
    + rewrite finish_released by (simpl; lia). simpl.
      pose proof (count_insert posted _ _ _
                    (Finished (Err (KeyError "content"))) Hj) as Hc.
      unfold weight at 2 in Hc. simpl in Hc. lia.
  - destruct (inv_tasks _ _ _ _ _ Hinv j _ Hj) as (_ & _ & -> & _).
    pose proof (in_flight_counted s j d p _ Hj) as Hpos.
    rewrite finish_released by (simpl; lia). simpl.
    pose proof (count_insert posted _ _ _
                  (Finished (request_resume d (endpoint j p) (heap s)).2) Hj) as Hc.
    unfold weight in Hc. rewrite posted_resume in Hc. simpl in Hc. lia.
Qed.

Lemma sent_count (ls : list label) (s s' : @state scalar) :
  inv documents max_workers h0 endpoint s →
  length (sent s) = length (filter posted (tasks s)) →
  exec endpoint ls s = Some s' →
  length (sent s') = length (filter posted (tasks s')).
Proof.
  revert s. induction ls as [|a ls IH]; intros s Hinv Hlen Hs; simpl in Hs.
  - by simplify_eq.
  - destruct (step endpoint a s) as [s1|] eqn:Ha; [|done].
    eapply (IH s1); [by eapply inv_step|by eapply sent_count_step|done].
Qed.

Lemma sent_count_run (ls : list label) (s : @state scalar) :
  exec endpoint ls start = Some s →
  length (sent s) = length (filter posted (tasks s)).
Proof.
  intros Hs. eapply sent_count; [apply inv_main| |done].
  simpl. by rewrite pending_not_posted.
Qed.

(** X6. The endpoint is called at most once for each position of the job
    set, so at most [len(documents)] times in all; the calls made so far
    are those of the tasks that got as far as their post; and when [main]
    has returned the endpoint has been called exactly [len(documents)]
    times. *)
Theorem requests_sent_bounded (ls : list label) (s : @state scalar) :
  exec endpoint ls start = Some s →
  length (sent s) = length (filter posted (tasks s)) ∧
  length (sent s) ≤ length documents ∧
  (main_st s = Returned → length (sent s) = length documents).
Proof.
  intros Hs. pose proof (inv_run _ _ _ _ _ _ Hs) as Hinv.
  pose proof (sent_count_run ls s Hs) as Hlen.
  pose proof (inv_length _ _ _ _ _ Hinv) as HN.
  split_and!; [done| |].
  - rewrite Hlen, <- HN. apply length_filter.
  - intros Hret. rewrite Hlen, <- HN. apply filter_all. intros i t Hi.
    assert (i < length documents) as Hlt.
    { rewrite <- HN. by eapply lookup_lt_Some. }
    apply lookup_lt_is_Some_2 in Hlt as [d Hd].
    pose proof (returned_all_ok _ _ _ _ s i d Hinv Hret Hd). by simplify_eq.
Qed.

(** X7. A record without a ['content'] field: its task takes a slot, raises
    [KeyError] before anything is sent, gives the slot back and is queued as
    done; no record is changed. *)
Theorem missing_content_raises_key_error (ls : list label) (s : @state scalar)
    (i : nat) (d : loc) (t : @task scalar) :
  exec endpoint ls start = Some s →
  tasks s !! i = Some t → t = Pending d ∨ t = Waiting d →
  0 < sem_value s → h0 d !! "content" = None →
  ∃ s', step endpoint (Sched i) s = Some s' ∧
        tasks s' !! i = Some (Finished (Err (KeyError "content"))) ∧
        sent s' = sent s ∧ heap s' = heap s ∧
        sem_value s' = sem_value s ∧ done s' = done s ++ [i].
Proof.
  intros Hs Hi Ht Hv Hc. pose proof (inv_run _ _ _ _ _ _ Hs) as Hinv.
  pose proof (inv_slots _ _ _ _ _ Hinv) as Hsl.
  pose proof (inv_bound _ _ _ _ _ Hinv) as Hb.
  pose proof (content_kept _ _ _ s d (inv_heap _ _ _ _ _ Hinv d)) as Hkept.
  exists (enter i d s). split.
  - simpl. rewrite Hi. destruct Ht as [-> | ->]; by case_decide.
  - unfold enter, request. simpl. rewrite Hkept, Hc.
    rewrite finish_released by (simpl; lia). simpl.
    split_and!; [|done|done|lia|done].
    apply list_lookup_insert_eq. by eapply lookup_lt_Some.
Qed.

Lemma exec_awaits (ls : list label) (s s' : @state scalar) :
  exec endpoint ls s = Some s' →
  await_count ls + remaining (main_st s') ≤ remaining (main_st s) ∧
  ((∃ e, main_st s = Raised e) → ∃ e, main_st s' = Raised e) ∧
  (main_st s' = Returned → await_count ls = remaining (main_st s)).
Proof.
  revert s. induction ls as [|a ls IH]; intros s Hs; simpl in Hs.
  - simplify_eq. unfold await_count. simpl. split_and!; [lia|done|].
    by intros ->.
  - destruct (step endpoint a s) as [s1|] eqn:Ha; [|done].
    destruct (IH s1 Hs) as (IH1 & IH2 & IH3).
    unfold await_count in *. rewrite filter_cons.
    destruct (step_main _ a s s1 Ha)
      as [[Hna Hm]|(Hya & _ & n & Hm & [Hm1|[e Hm1]])].
    + rewrite Hm in *. case_decide; [congruence|]. done.
    + rewrite Hm1, Hm, ?remaining_loop in *. case_decide; [|congruence].
      simpl. split_and!; [lia|by intros [? ?]|]. intros Hret.
      rewrite IH3; done.
    + rewrite Hm1, Hm in *. case_decide; [|congruence]. simpl in *.
      split_and!; [lia|by intros [? ?]|]. intros Hret.
      destruct IH2 as [e' He']; [by eauto|]. congruence.
Qed.

(** X8. [main] awaits at most one future for each document, and it has
    returned only after awaiting exactly [len(documents)] of them: the
    progress bar never passes its total and is full when [main] returns. *)
Theorem awaits_match_documents (ls : list label) (s : @state scalar) :
  exec endpoint ls start = Some s →
  await_count ls + remaining (main_st s) ≤ length documents ∧
  (main_st s = Returned → await_count ls = length documents).
Proof.
  intros Hs. destruct (exec_awaits ls _ s Hs) as (Hle & _ & Hret).
  simpl in Hle, Hret. rewrite remaining_loop in Hle, Hret. done.
Qed.




End Requests.

(** * A limit of zero, a second run, and the cap on the rows *)

Section Edges.

Context {scalar : Type}.
Variable documents : list loc.
Variable h0 : loc → gmap string (@value scalar).

(** With no slot to take, a task can only start to wait. *)
Lemma zero_limit_step (endpoint : nat → @payload scalar → @response scalar)
    (a : label) (s s' : @state scalar) :
  step endpoint a s = Some s' →
  sem_value s = 0 → done s = [] →
  (∀ i t, tasks s !! i = Some t → ∃ d, t = Pending d ∨ t = Waiting d) →
  sem_value s' = 0 ∧ done s' = [] ∧ sent s' = sent s ∧ heap s' = heap s ∧
  main_st s' = main_st s ∧
  (∀ i t, tasks s' !! i = Some t → ∃ d, t = Pending d ∨ t = Waiting d).
Proof.
  intros Hs Hv Hd Hall. destruct a as [i|i|]; simpl in Hs.
  - destruct (tasks s !! i) as [t|] eqn:Hi; [|done].
    destruct (Hall i t Hi) as [d [-> | ->]].
    + case_decide; [lia|]. simplify_eq. simpl. split_and!; try done.
      intros j t Hj. apply list_lookup_insert_Some in Hj as [(_ & <- & _)|[_ Hj]].
      * eauto.
      * by eapply Hall.
    + case_decide; [lia|done].
  - destruct (tasks s !! i) as [t|] eqn:Hi; [|done].
    by destruct (Hall i t Hi) as [d [-> | ->]].
  - rewrite Hd in Hs. by destruct (main_st s) as [[|n]| |].
Qed.

(** X10. A limit of zero: the semaphore has no slot, so whatever the
    schedule no request is ever sent, no record changes and no future is
    ever done; with a document to embed [main] never returns. *)
Theorem zero_limit_sends_nothing
    (endpoint : nat → @payload scalar → @response scalar)
    (ls : list label) (s : @state scalar) :
  exec endpoint ls (main documents 0 h0) = Some s →
  sent s = [] ∧ heap s = h0 ∧ done s = [] ∧
  (∀ i t, tasks s !! i = Some t → ∃ d, t = Pending d ∨ t = Waiting d) ∧
  main_st s = loop (length documents) ∧
  (documents ≠ [] → main_st s ≠ Returned).
Proof.
  assert (∀ ls (s0 s : @state scalar),
            exec endpoint ls s0 = Some s →
            sem_value s0 = 0 → done s0 = [] →
            (∀ i t, tasks s0 !! i = Some t → ∃ d, t = Pending d ∨ t = Waiting d) →
            sent s = sent s0 ∧ heap s = heap s0 ∧ done s = [] ∧
            main_st s = main_st s0 ∧
            (∀ i t, tasks s !! i = Some t → ∃ d, t = Pending d ∨ t = Waiting d))
    as Hgen.
  { clear ls s. induction ls as [|a ls IH]; intros s0 s Hs Hv Hd Hall; simpl in Hs.
    - by simplify_eq.
    - destruct (step endpoint a s0) as [s1|] eqn:Ha; [|done].
      destruct (zero_limit_step endpoint a s0 s1 Ha Hv Hd Hall)
        as (Hv1 & Hd1 & Hs1 & Hh1 & Hm1 & Hall1).
      destruct (IH s1 s Hs Hv1 Hd1 Hall1) as (? & ? & ? & ? & ?).
      split_and!; [congruence|congruence|done|congruence|done]. }
  intros Hs. destruct (Hgen ls _ s Hs) as (Hsent & Hheap & Hdone & Hm & Hall).
  - done.
  - done.
  - intros i t Hi. simpl in Hi. rewrite list_lookup_fmap in Hi.
    destruct (documents !! i) as [d|]; simplify_eq/=. eauto.
  - split_and!; try done. intros Hne. rewrite Hm. simpl.
    destruct documents; done.
Qed.

(** X11. Running the client a second time on the records a first run left,
    against an endpoint whose reply depends on the payload only: the second
    run sends the same texts and leaves every record as the first run left
    it, whatever the two schedules and the two limits. *)
Theorem rerun_is_idempotent (k1 k2 : nat)
    (reply : @payload scalar → @response scalar)
    (ls1 ls2 : list label) (s1 s2 : @state scalar) :
  exec (λ _, reply) ls1 (main documents k1 h0) = Some s1 →
  main_st s1 = Returned →
  exec (λ _, reply) ls2 (main documents k2 (heap s1)) = Some s2 →
  main_st s2 = Returned →
  (∀ l, heap s2 l = heap s1 l) ∧
  (∀ i p, (i, p) ∈ sent s2 → (i, p) ∈ sent s1).
Proof.
  intros Hs1 Hr1 Hs2 Hr2.
  pose proof (inv_run _ _ _ _ _ _ Hs1) as Hinv1.
  pose proof (inv_run _ _ _ _ _ _ Hs2) as Hinv2.
  assert (∀ l, heap s1 l !! "content" = h0 l !! "content") as Hkept.
  { intros l. apply (content_kept _ _ _ s1 l (inv_heap _ _ _ _ _ Hinv1 l)). }
  split.
  - intros l.
    destruct (inv_heap _ _ _ _ _ Hinv2 l)
      as [[Hl2 _]|(j2 & c2 & v2 & Hj2 & _ & Hc2 & He2 & Hh2)]; [done|].
    pose proof (returned_all_ok _ _ _ _ s1 j2 l Hinv1 Hr1 Hj2) as Hok1.
    destruct (inv_heap _ _ _ _ _ Hinv1 l)
      as [[_ Hn1]|(j1 & c1 & v1 & _ & _ & Hc1 & He1 & Hh1)];
      [by apply Hn1 in Hok1|].
    rewrite Hkept in Hc2. simplify_eq. rewrite Hh2, Hh1.
    rewrite insert_insert_eq. congruence.
  - intros i p Hin.
    destruct (sent_run _ _ _ _ _ _ Hs2 i p Hin) as (d & Hd & c & Hc & ->).
    rewrite Hkept in Hc.
    pose proof (returned_all_ok _ _ _ _ s1 i d Hinv1 Hr1 Hd) as Hok1.
    by eapply finished_ok_sent.
Qed.

End Edges.

(** X12. The rows embedded are [rows[:ROW_COUNT]]: a prefix of the rows, all
    of them when the cap is [None], the first [n] (or all, if there are
    fewer) for a cap [n ≥ 0], and all but the last [-n] for a negative cap;
    a run on them has one task for each such row and never sends more
    requests than that. *)
Theorem capped_rows_bound_requests {scalar : Type} (stop : option Z)
    (rows : list loc) (max_workers : nat)
    (h0 : loc → gmap string (@value scalar))
    (endpoint : nat → @payload scalar → @response scalar)
    (ls : list label) (s : @state scalar) :
  exec endpoint ls (main (slice_to stop rows) max_workers h0) = Some s →
  slice_to stop rows `prefix_of` rows ∧
  length (tasks s) = length (slice_to stop rows) ∧
  length (sent s) ≤ length (slice_to stop rows) ∧
  (stop = None → slice_to stop rows = rows) ∧
  (∀ n, stop = Some n → (0 ≤ n)%Z →
        length (slice_to stop rows) = Z.to_nat n `min` length rows) ∧
  (∀ n, stop = Some n → (n < 0)%Z →
        length (slice_to stop rows) = length rows - Z.to_nat (- n)).
Proof.
  intros Hs. pose proof (inv_run _ _ _ _ _ _ Hs) as Hinv.
  pose proof (inv_length _ _ _ _ _ Hinv) as HN.
  pose proof (sent_count_run _ _ _ _ ls s Hs) as Hlen.
  split_and!.
  - destruct stop as [n|]; simpl; [|done].
    case_decide; apply prefix_take.
  - done.
  - rewrite Hlen, <- HN. apply length_filter.
  - by intros ->.
  - intros n -> Hn. simpl. case_decide; [|lia]. apply length_take.
  - intros n -> Hn. simpl. case_decide; [lia|]. rewrite length_take. lia.
Qed.


(** X13. When the records are distinct objects, the record of a task that
    failed is, from then on and whatever else runs, exactly as it was
    submitted: it never receives the embedding of another request. *)
Theorem failed_record_left_unchanged {scalar : Type} (documents : list loc)
    (max_workers : nat) (h0 : loc → gmap string (@value scalar))
    (endpoint : nat → @payload scalar → @response scalar)
    (ls : list label) (s : @state scalar) (i : nat) (d : loc) (e : exn) :
  exec endpoint ls (main documents max_workers h0) = Some s →
  NoDup documents → documents !! i = Some d →
  tasks s !! i = Some (Finished (Err e)) →
  ∀ ls' s', exec endpoint ls' s = Some s' → heap s' d = h0 d.
Proof.
  intros Hs Hnd Hd Hi ls' s' Hs'.
  pose proof (inv_run _ _ _ _ _ _ Hs) as Hinv.
  pose proof (inv_exec _ _ _ _ _ _ _ Hinv Hs') as Hinv'.
  pose proof (finished_exec _ _ _ _ _ _ Hs' Hi) as Hi'.
  destruct (inv_heap _ _ _ _ _ Hinv' d)
    as [[Hh _]|(j & c & first & Hj & Hf & _)]; [done|].
  assert (j = i) as -> by by eapply NoDup_lookup.
  congruence.
Qed.

(** * The added properties run on small job sets *)

(** Two records and one slot: seven of the eight steps allowed are taken. *)
Lemma run_length_bounded_witness :
  ∃ s, exec demo_endpoint
         [Sched 0; Sched 1; Reply 0; Await; Sched 1; Reply 1; Await]
         (main [0; 1] 1 demo_store) = Some s ∧
       main_st s = Returned ∧
       7 + budget s ≤ 4 * 2.
Proof.
  run_schedule Hs. split; [by_running|].
  exact (proj1 (run_length_bounded _ _ _ _ _ _ Hs)).
Defined.

Lemma no_deadlock_witness :
  ∃ s, exec demo_endpoint (Sched <$> seq 0 3)
         (main [0; 1; 2] 2 demo_store) = Some s ∧
       main_st s = Running 3 ∧
       ∃ a s', step demo_endpoint a s = Some s'.
Proof.
  run_schedule Hs.
  match type of Hs with _ = Some ?s =>
    assert (main_st s = Running 3) as Hm by by_running
  end.
  split; [exact Hm|].
  apply (no_deadlock _ _ _ _ _ _ Hs); [lia|]. right. by exists 3.
Defined.

Lemma returned_is_quiescent_witness :
  ∃ s, exec demo_endpoint (eager_schedule 3)
         (main [0; 1; 2] MAX_WORKERS demo_store) = Some s ∧
       main_st s = Returned ∧
       outstanding s = 0 ∧ sem_value s = MAX_WORKERS ∧ done s = [] ∧
       ∀ a, step demo_endpoint a s = None.
Proof.
  run_schedule Hs.
  match type of Hs with _ = Some ?s =>
    assert (main_st s = Returned) as Hm by by_running
  end.
  split; [exact Hm|]. exact (returned_is_quiescent _ _ _ _ _ _ Hs Hm).
Defined.


Lemma empty_job_set_returns_witness :
  ∃ s, exec demo_endpoint [] (main [] MAX_WORKERS demo_store) = Some s ∧
       main_st s = Returned ∧ sent s = [] ∧ heap s = demo_store.
Proof.
  run_schedule Hs.
  exact (proj2 (empty_job_set_returns _ _ _ _ _ Hs)).
Defined.

Lemma requests_sent_bounded_witness :
  ∃ s, exec ragged_endpoint ((Sched <$> seq 0 7) ++ (Reply <$> [4; 0]))
         (main (seq 0 7) MAX_WORKERS demo_store) = Some s ∧
       length (sent s) = 5 ∧
       length (sent s) = length (filter (λ t, has_posted t = true) (tasks s)) ∧
       length (sent s) ≤ 7.
Proof.
  run_schedule Hs. split; [by_running|].
  destruct (requests_sent_bounded _ _ _ _ _ _ Hs) as (Heq & Hle & _).
  split; [exact Heq | exact Hle].
Defined.

Lemma missing_content_raises_key_error_witness :
  ∃ s, exec demo_endpoint [] (main [0] MAX_WORKERS no_content_store) = Some s ∧
       ∃ s', step demo_endpoint (Sched 0) s = Some s' ∧
             tasks s' !! 0 = Some (Finished (Err (KeyError "content"))) ∧
             sent s' = sent s ∧ heap s' = heap s ∧
             sem_value s' = sem_value s ∧ done s' = done s ++ [0].
Proof.
  run_schedule Hs.
  apply (missing_content_raises_key_error _ _ _ _ _ _ 0 0 (Pending 0) Hs).
  - reflexivity.
  - by left.
  - vm_compute. lia.
  - reflexivity.
Defined.

Lemma awaits_match_documents_witness :
  ∃ s, exec demo_endpoint (eager_schedule 3)
         (main [0; 1; 2] MAX_WORKERS demo_store) = Some s ∧
       await_count (eager_schedule 3) = 3 ∧
       await_count (eager_schedule 3) + remaining (main_st s) ≤ 3.
Proof.
  run_schedule Hs. split; [by_running|].
  exact (proj1 (awaits_match_documents _ _ _ _ _ _ Hs)).
Defined.


Lemma zero_limit_sends_nothing_witness :
  ∃ s, exec demo_endpoint [Sched 0; Sched 1] (main [0; 1] 0 demo_store) = Some s ∧
       tasks s = [Waiting 0; Waiting 1] ∧
       sent s = [] ∧ main_st s ≠ Returned.
Proof.
  run_schedule Hs. split; [by_running|].
  destruct (zero_limit_sends_nothing _ _ _ _ _ Hs) as (Hsent & _ & _ & _ & _ & Hm).
  split; [exact Hsent|]. by apply Hm.
Defined.

Lemma rerun_is_idempotent_witness :
  ∃ s1 s2,
    exec (λ _, text_endpoint) (eager_schedule 3)
      (main [0; 1; 2] MAX_WORKERS demo_store) = Some s1 ∧
    exec (λ _, text_endpoint)
      [Sched 2; Sched 1; Sched 0; Reply 1; Sched 0; Reply 2; Await; Reply 0;
       Await; Await]
      (main [0; 1; 2] 2 (heap s1)) = Some s2 ∧
    main_st s1 = Returned ∧ main_st s2 = Returned ∧
    ∀ l, heap s2 l = heap s1 l.
Proof.
  set (ls2 := [Sched 2; Sched 1; Sched 0; Reply 1; Sched 0; Reply 2; Await;
               Reply 0; Await; Await]).
  set (s1 := run_to (λ _, text_endpoint) (eager_schedule 3)
               (main [0; 1; 2] MAX_WORKERS demo_store)).
  set (s2 := run_to (λ _, text_endpoint) ls2 (main [0; 1; 2] 2 (heap s1))).
  assert (exec (λ _, text_endpoint) (eager_schedule 3)
            (main [0; 1; 2] MAX_WORKERS demo_store) = Some s1) as Hs1
    by (apply exec_run_to; by_running).
  assert (exec (λ _, text_endpoint) ls2 (main [0; 1; 2] 2 (heap s1)) = Some s2)
    as Hs2 by (apply exec_run_to; by_running).
  assert (main_st s1 = Returned) as Hr1 by by_running.
  assert (main_st s2 = Returned) as Hr2 by by_running.
  exists s1, s2. split; [exact Hs1|]. split; [exact Hs2|].
  split; [exact Hr1|]. split; [exact Hr2|].
  exact (proj1 (rerun_is_idempotent _ _ _ _ _ _ _ _ _ Hs1 Hr1 Hs2 Hr2)).
Defined.

Lemma capped_rows_bound_requests_witness :
  ∃ s, exec demo_endpoint (Sched <$> seq 0 2)
         (main (slice_to (Some 2%Z) [0; 1; 2; 3]) MAX_WORKERS demo_store) = Some s ∧
       slice_to (Some 2%Z) [0; 1; 2; 3] = [0; 1] ∧
       slice_to (Some (-1)%Z) [0; 1; 2; 3] = [0; 1; 2] ∧
       length (slice_to ROW_COUNT (seq 0 250)) = 100 ∧
       length (sent s) ≤ length (slice_to (Some 2%Z) [0; 1; 2; 3]).
Proof.
  run_schedule Hs. split; [reflexivity|]. split; [reflexivity|].
  split; [by_running|].
  exact (proj1 (proj2 (proj2 (capped_rows_bound_requests _ _ _ _ _ _ _ Hs)))).
Defined.

Lemma failed_record_left_unchanged_witness :
  ∃ s, exec every_fifth_fails ((Sched <$> seq 0 5) ++ [Reply 4])
         (main (seq 0 5) MAX_WORKERS demo_store) = Some s ∧
       tasks s !! 4 = Some (Finished (Err (ClientError (BadStatus 500)))) ∧
       ∀ ls' s', exec every_fifth_fails ls' s = Some s' →
                 heap s' 4 = demo_store 4.
Proof.
  run_schedule Hs.
  match type of Hs with _ = Some ?s =>
    assert (tasks s !! 4 = Some (Finished (Err (ClientError (BadStatus 500)))))
      as Hi by by_running
  end.
  split; [exact Hi|].
  apply (failed_record_left_unchanged _ _ _ _ _ _ 4 4
           (ClientError (BadStatus 500)) Hs);
    [apply NoDup_seq | reflexivity | exact Hi].
Defined.
